(** * client-pk: the credential synchronisation code of [cursor_auth.py]

    A shallow embedding of [get_token], [save_token], [clear_auth_info],
    [CursorAuthManager] ([_init_database], [update_auth], [get_auth_info])
    and [update_cursor_auth], followed by the properties of the
    specification that concern them.

    Conventions of the model.
    - A Python [str] is a Rocq [string] holding its UTF-8 bytes.
    - The file system is the single token file [~/.cursor_auth/token];
      the SQLite file [state.vscdb] is the list of rows of [itemTable] in
      rowid order.
    - The outside world is scripted: the replies of the server are consumed
      one per [requests.post], and every [sqlite3.connect] takes the next
      fault plan, which says after how many statements the engine raises
      [sqlite3.Error] (if at all). *)

From Stdlib Require Import ZArith Ascii String.
From stdpp Require Import gmap strings list.

Local Open Scope Z_scope.

(** ** Text *)

Module Text.

Definition bytes (codes : list nat) : string :=
  string_of_list_ascii (ascii_of_nat <$> codes).

Definition LF : ascii := ascii_of_nat 10.
Definition CR : ascii := ascii_of_nat 13.

(** [s.startswith(p)] *)
Definition startswith (p s : string) : bool := String.prefix p s.

(** Truth value of a [str]: the empty string is false. *)
Definition truthy (s : string) : bool :=
  match s with EmptyString => false | String _ _ => true end.

(** The characters for which [str.isspace()] holds, in UTF-8: U+0009 to
    U+000D, U+001C to U+0020, U+0085, U+00A0, U+1680, U+2000 to U+200A,
    U+2028, U+2029, U+202F, U+205F and U+3000. *)
Definition whitespace : list string :=
  bytes <$> [ [9]; [10]; [11]; [12]; [13]; [28]; [29]; [30]; [31]; [32];
              [194; 133]; [194; 160]; [225; 154; 128];
              [226; 128; 128]; [226; 128; 129]; [226; 128; 130];
              [226; 128; 131]; [226; 128; 132]; [226; 128; 133];
              [226; 128; 134]; [226; 128; 135]; [226; 128; 136];
              [226; 128; 137]; [226; 128; 138];
              [226; 128; 168]; [226; 128; 169]; [226; 128; 175];
              [226; 129; 159]; [227; 128; 128] ]%nat.

(** What is left of [s] after the prefix [p], when [s] starts with [p]. *)
Fixpoint after_prefix (p s : string) : option string :=
  match p with
  | EmptyString => Some s
  | String a p' =>
      match s with
      | String b s' => if Ascii.eqb a b then after_prefix p' s' else None
      | EmptyString => None
      end
  end.

(** What is left of [s] after the first of [pats] it starts with. *)
Fixpoint drop_first (pats : list string) (s : string) : option string :=
  match pats with
  | [] => None
  | p :: pats' =>
      match after_prefix p s with
      | Some rest => Some rest
      | None => drop_first pats' s
      end
  end.

(** Leading characters of [pats] are dropped as long as there are any; no
    more than [fuel] times, and the length of [s] is fuel enough. *)
Fixpoint strip_go (pats : list string) (fuel : nat) (s : string) : string :=
  match fuel with
  | O => s
  | S fuel' =>
      match drop_first pats s with
      | Some rest => strip_go pats fuel' rest
      | None => s
      end
  end.

Definition lstrip (s : string) : string :=
  strip_go whitespace (String.length s) s.

Definition rstrip (s : string) : string :=
  String.rev (strip_go (String.rev <$> whitespace) (String.length s) (String.rev s)).

(** [s.strip()] *)
Definition strip (s : string) : string := rstrip (lstrip s).

(** Text written through a file opened in text mode: every line feed
    becomes the line separator of the platform. *)
Fixpoint newlines_out (linesep : string) (s : string) : string :=
  match s with
  | EmptyString => EmptyString
  | String c r =>
      if Ascii.eqb c LF then linesep +:+ newlines_out linesep r
      else String c (newlines_out linesep r)
  end.

(** Text read through a file opened in text mode (universal newlines):
    CR LF and a lone CR both read as a line feed. *)
Fixpoint newlines_in (s : string) : string :=
  match s with
  | EmptyString => EmptyString
  | String c r =>
      if Ascii.eqb c CR then
        String LF
          match r with
          | String c' r' =>
              if Ascii.eqb c' LF then newlines_in r' else newlines_in r
          | EmptyString => EmptyString
          end
      else String c (newlines_in r)
  end.

(** ASCII letters fold to lower case, as SQLite's [LIKE] compares them. *)
Definition lower (c : ascii) : ascii :=
  let n := nat_of_ascii c in
  if ((65 <=? n) && (n <=? 90))%nat then ascii_of_nat (n + 32) else c.

Fixpoint lowercase (s : string) : string :=
  match s with
  | EmptyString => EmptyString
  | String c r => String (lower c) (lowercase r)
  end.

(** [s.split('/')[-1]]: what follows the last slash. *)
Fixpoint last_segment_go (cur : string) (s : string) : string :=
  match s with
  | EmptyString => String.rev cur
  | String c r =>
      if Ascii.eqb c "/"%char then last_segment_go EmptyString r
      else last_segment_go (String c cur) r
  end.

Definition last_segment (s : string) : string := last_segment_go EmptyString s.

End Text.

(** ** The refresh-token test

    [refresh_token and refresh_token.startswith("ey")], at lines 183, 347
    and 360.  The value is [None] or a [str]. *)

Definition token_ok (t : string) : bool :=
  Text.truthy t && Text.startswith "ey" t.

Definition token_valid (refresh_token : option string) : bool :=
  match refresh_token with
  | None => false
  | Some t => token_ok t
  end.


(** ** The world outside the program *)

(** *** The store: [itemTable (key TEXT PRIMARY KEY, value TEXT)] *)

Definition row : Type := string * string.
Definition table : Type := list row.

Module Sql.

(** [key LIKE 'cursorAuth/%']: the pattern is a literal prefix followed by
    any text, and [LIKE] ignores the case of ASCII letters. *)
Definition like_cursorAuth (key : string) : bool :=
  Text.startswith (Text.lowercase "cursorAuth/") (Text.lowercase key).

(** [SELECT COUNT( * ) FROM itemTable WHERE key = ?] *)
Fixpoint count (key : string) (t : table) : nat :=
  match t with
  | [] => O
  | (k, _) :: t' => if String.eqb k key then S (count key t') else count key t'
  end.

(** [INSERT INTO itemTable (key, value) VALUES (?, ?)], issued for a key
    that has no row. *)
Definition insert (key value : string) (t : table) : table :=
  t ++ [(key, value)].

(** [UPDATE itemTable SET value = ? WHERE key = ?] *)
Fixpoint update (key value : string) (t : table) : table :=
  match t with
  | [] => []
  | (k, v) :: t' =>
      (if String.eqb k key then (k, value) else (k, v)) :: update key value t'
  end.

(** [DELETE FROM itemTable WHERE key LIKE 'cursorAuth/%'] *)
Fixpoint delete_auth (t : table) : table :=
  match t with
  | [] => []
  | (k, v) :: t' =>
      if like_cursorAuth k then delete_auth t' else (k, v) :: delete_auth t'
  end.

(** [SELECT key, value FROM itemTable WHERE key LIKE 'cursorAuth/%'] *)
Fixpoint select_auth (t : table) : table :=
  match t with
  | [] => []
  | (k, v) :: t' =>
      if like_cursorAuth k then (k, v) :: select_auth t' else select_auth t'
  end.

End Sql.

(** A fault plan of a connection: [Some n] when the engine raises
    [sqlite3.Error] at the statement after [n] successful ones ([connect]
    counts as the first), [None] when it never does. *)
Definition fault : Type := option nat.

(** *** The provisioning service *)

(** A field of a JSON object: missing, [null], or a value. *)
Inductive field (A : Type) : Type :=
  | Absent
  | Null
  | Val (a : A).
Arguments Absent {A}.
Arguments Null {A}.
Arguments Val {A} a.

(** [data.get(key)] *)
Definition dict_get {A : Type} (f : field A) : option A :=
  match f with
  | Val a => Some a
  | Absent | Null => None
  end.

(** [data.get(key, default)]: the default replaces a missing key only. *)
Definition dict_get_default {A : Type} (f : field A) (default : A) : option A :=
  match f with
  | Val a => Some a
  | Absent => Some default
  | Null => None
  end.

(** The fields the client reads from a reply, with the types of the
    protocol: strings for [email], [password], [refresh_token] and [status],
    an integer for [pull_count].  ([id] and [usage] are only logged.) *)
Record body : Type := Body {
  f_email : field string;
  f_password : field string;
  f_refresh_token : field string;
  f_status : field string;
  f_pull_count : field Z
}.

(** What one [requests.post] followed by [raise_for_status()] and [json()]
    comes to. *)
Inductive reply : Type :=
  | RequestError          (* [requests.RequestException] is raised *)
  | NotADict              (* the body is JSON but not an object *)
  | Dict (data : body).   (* the body is a JSON object *)

Inductive request : Type :=
  | GetCursorToken (bearer : string)
      (* POST /auth/get-cursor-token *)
  | GetRefreshToken (bearer : string) (email password : option string).
      (* POST /auth/get-refresh-token *)

(** *** The state of the world *)

Record world : Type := World {
  token_file : option string;  (* bytes of ~/.cursor_auth/token, if it exists *)
  linesep : string;            (* [os.linesep] *)
  db : table;                  (* the committed rows of [itemTable] *)
  db_faults : list fault;      (* fault plans of the connections to come *)
  net : list reply;            (* replies of the requests to come *)
  sent : list request          (* requests made so far, oldest first *)
}.

Definition set_token_file (f : option string) (w : world) : world :=
  World f (linesep w) (db w) (db_faults w) (net w) (sent w).

Definition set_db (t : table) (w : world) : world :=
  World (token_file w) (linesep w) t (db_faults w) (net w) (sent w).

Definition set_db_faults (fs : list fault) (w : world) : world :=
  World (token_file w) (linesep w) (db w) fs (net w) (sent w).

(** [requests.post]: the request is recorded and the next scripted reply
    returned; a server with nothing left to say is unreachable. *)
Definition post (rq : request) (w : world) : reply * world :=
  let w' r := World (token_file w) (linesep w) (db w) (db_faults w) r (sent w ++ [rq]) in
  match net w with
  | [] => (RequestError, w' [])
  | r :: rest => (r, w' rest)
  end.

(** ** TokenStore: [get_token] and [save_token] *)

Definition get_token (w : world) : option string :=
  match token_file w with
  | Some content => Some (Text.strip (Text.newlines_in content))
  | None => None
  end.

Definition save_token (token : string) (w : world) : world :=
  set_token_file (Some (Text.newlines_out (linesep w) token)) w.

(** [token_path.unlink()] when the file exists. *)
Definition unlink_token (w : world) : world := set_token_file None w.

(** ** Connections to the store

    A connection of Python's [sqlite3] module: the statements that change
    rows run inside a transaction that the module opens by itself, so they
    change the connection's view of the table; [commit()] makes the view
    durable; [close()] without [commit()] abandons it.  Every statement
    first asks the fault plan whether the engine raises. *)

Record conn : Type := Conn {
  durable : table;   (* the rows in the file *)
  view : table;      (* the rows as this connection sees them *)
  budget : fault     (* statements left before [sqlite3.Error] *)
}.

(** A run of statements: the connection afterwards, and the result unless
    [sqlite3.Error] was raised. *)
Definition sql (A : Type) : Type := conn → conn * option A.

Global Instance sql_ret : MRet sql := λ A a c, (c, Some a).

Global Instance sql_bind : MBind sql := λ A B k m c,
  match m c with
  | (c', Some a) => k a c'
  | (c', None) => (c', None)
  end.

Definition tick (c : conn) : option conn :=
  match budget c with
  | None => Some c
  | Some O => None
  | Some (S n) => Some (Conn (durable c) (view c) (Some n))
  end.

(** [cursor.execute(...)] of a statement that maps the rows and returns [A]. *)
Definition execute {A : Type} (stmt : table → table * A) : sql A := λ c,
  match tick c with
  | None => (c, None)
  | Some c' =>
      let '(t, a) := stmt (view c') in
      (Conn (durable c') t (budget c'), Some a)
  end.

(** [conn.commit()] *)
Definition commit : sql unit := λ c,
  match tick c with
  | None => (c, None)
  | Some c' => (Conn (view c') (view c') (budget c'), Some tt)
  end.

Definition next_fault (w : world) : fault * list fault :=
  match db_faults w with
  | [] => (None, [])
  | plan :: rest => (plan, rest)
  end.

(** [conn = sqlite3.connect(db_path)], the statements of [body], and the
    [finally: if conn: conn.close()] that ends every use of a connection. *)
Definition with_connection {A : Type} (body : sql A) (w : world) : option A * world :=
  let '(plan, rest) := next_fault w in
  let w1 := set_db_faults rest w in
  match tick (Conn (db w) (db w) plan) with
  | None => (None, w1)
  | Some c => let '(c', r) := body c in (r, set_db (durable c') w1)
  end.

(** [CREATE TABLE IF NOT EXISTS itemTable (...)]: the table of the model
    always exists, the statement changes nothing. *)
Definition create_table : sql unit := execute (λ t, (t, tt)).

(** ** CredentialStateStore: [CursorAuthManager] *)

(** [_init_database]: [None] when it raises. *)
Definition _init_database (w : world) : option unit * world :=
  with_connection (create_table ;; commit) w.

(** [CursorAuthManager()]: the constructor picks [db_path] for the platform
    and runs [_init_database]; [None] when it raises. *)
Definition CursorAuthManager (w : world) : option unit * world :=
  _init_database w.

(** The list [updates] built at lines 170 to 193. *)
Definition updates_of (email refresh_token : option string) : list row :=
  [ ("cursorAuth/cachedSignUpType", "Auth_0");
    ("cursorAuth/signUpType", "Auth_0");
    ("cursorAuth/isLoggedIn", "true");
    ("cursorAuth/stripeMembershipType", "free_trial") ]
  ++ match email with
     | Some e => [ ("cursorAuth/cachedEmail", e); ("cursorAuth/email", e) ]
     | None => []
     end
  ++ (if token_valid refresh_token then
        match refresh_token with
        | Some jwt_token =>
            [ ("cursorAuth/cachedAccessToken", jwt_token);
              ("cursorAuth/accessToken", jwt_token);
              ("cursorAuth/token", jwt_token);
              ("cursorAuth/refreshToken", jwt_token);
              ("cursorAuth/cachedRefreshToken", jwt_token) ]
        | None => []
        end
      else []).

(** The body of the loop at lines 210 to 228. *)
Definition upsert (kv : row) : sql unit :=
  let '(key, value) := kv in
  n ← execute (λ t, (t, Sql.count key t));
  if decide (n = O)
  then execute (λ t, (Sql.insert key value t, tt))
  else execute (λ t, (Sql.update key value t, tt)).

Fixpoint upsert_all (updates : list row) : sql unit :=
  match updates with
  | [] => mret tt
  | kv :: rest => upsert kv ;; upsert_all rest
  end.

(** Lines 196 to 250: the statements of [update_auth] on its connection. *)
Definition update_auth_session (updates : list row) : sql unit :=
  create_table ;;
  upsert_all updates ;;
  commit ;;
  _ ← execute (λ t, (t, Sql.select_auth t));
  mret tt.

Definition update_auth (email access_token refresh_token : option string)
    (w : world) : bool * world :=
  let updates := updates_of email refresh_token in
  let '(r, w') := with_connection (update_auth_session updates) w in
  (bool_decide (is_Some r), w').

(** The sentinel of a missing email, the Chinese word for "unknown". *)
Definition unknown_email : string := "未知".

Definition default_auth_info : gmap string (option string) :=
  <["refreshToken" := None]> (<["accessToken" := None]>
    (<["email" := Some unknown_email]> ∅)).

(** [result.setdefault]-like steps of lines 277 to 282. *)
Definition if_missing (k : string) (v : option string)
    (result : gmap string (option string)) : gmap string (option string) :=
  match result !! k with
  | None => <[k := v]> result
  | Some _ => result
  end.

Definition get_auth_info (w : world) : gmap string (option string) * world :=
  let '(r, w') := with_connection (execute (λ t, (t, Sql.select_auth t))) w in
  match r with
  | Some rows =>
      let result :=
        foldl (λ res kv, <[Text.last_segment kv.1 := Some kv.2]> res) ∅ rows in
      (if_missing "refreshToken" None
         (if_missing "accessToken" None
            (if_missing "email" (Some unknown_email) result)), w')
  | None => (default_auth_info, w')
  end.

(** ** [clear_auth_info] *)

Definition clear_auth_info (w : world) : bool * world :=
  let w1 := unlink_token w in
  match CursorAuthManager w1 with
  | (None, w2) => (false, w2)
  | (Some _, w2) =>
      let '(r, w3) :=
        with_connection (execute (λ t, (Sql.delete_auth t, tt)) ;; commit) w2 in
      (bool_decide (is_Some r), w3)
  end.

(** ** SyncOrchestrator: [update_cursor_auth] *)

Definition max_retries : nat := 3.

(** How one pass through the body of the loop ends. *)
Inductive outcome : Type :=
  | RequestFailed     (* [requests.RequestException], lines 411 to 415 *)
  | TokenUnresolved   (* no usable refresh token, lines 362 to 367 *)
  | Unusable          (* status or quota, lines 378 to 385 *)
  | Incomplete        (* a part is missing, lines 387 to 389 *)
  | Committed         (* [update_auth] returned [True], line 404 *)
  | CommitFailed      (* [update_auth] returned [False], lines 405 to 409 *)
  | Raised.           (* another exception, caught at line 420 *)

(** What the loop does next. *)
Inductive control : Type :=
  | Continue
  | Return (result : bool).

(** Truth value of an optional [str]. *)
Definition truthy (v : option string) : bool :=
  match v with
  | Some s => Text.truthy s
  | None => false
  end.

(** Lines 347 to 367: the token to use, or [None] when the pass ends with
    [continue]. *)
Definition resolve_token (token : string)
    (email password refresh_token : option string) (w : world)
    : option string * world :=
  if token_valid refresh_token then (refresh_token, w)
  else
    let '(r, w1) := post (GetRefreshToken token email password) w in
    match r with
    | Dict refresh_data =>
        let refresh_token := dict_get (f_refresh_token refresh_data) in
        if token_valid refresh_token then (refresh_token, w1) else (None, w1)
    | RequestError | NotADict => (None, w1)
    end.

(** [status in ["EXCEEDED", "DEPLETED"]] *)
Definition status_excluded (status : option string) : bool :=
  match status with
  | Some s => String.eqb s "EXCEEDED" || String.eqb s "DEPLETED"
  | None => false
  end.

(** Lines 308 to 409, one pass. *)
Definition attempt_once (token : string) (w : world) : outcome * world :=
  let '(r, w1) := post (GetCursorToken token) w in
  match r with
  | RequestError => (RequestFailed, w1)
  | NotADict => (Raised, w1)
  | Dict data =>
      let email := dict_get (f_email data) in
      let password := dict_get (f_password data) in
      let refresh_token := dict_get (f_refresh_token data) in
      let status := dict_get (f_status data) in
      let pull_count := dict_get_default (f_pull_count data) 0 in
      match resolve_token token email password refresh_token w1 with
      | (None, w2) => (TokenUnresolved, w2)
      | (Some jwt, w2) =>
          let access_token := Some jwt in
          let refresh_token := Some jwt in
          if status_excluded status then (Unusable, w2)
          else
            match pull_count with
            | None => (Raised, w2)   (* [None >= 5] raises [TypeError] *)
            | Some n =>
                if 5 <=? n then (Unusable, w2)
                else if negb (forallb truthy [email; access_token; refresh_token])
                then (Incomplete, w2)
                else
                  match CursorAuthManager w2 with
                  | (None, w3) => (Raised, w3)
                  | (Some _, w3) =>
                      let '(success, w4) :=
                        update_auth email access_token refresh_token w3 in
                      (if success then Committed else CommitFailed, w4)
                  end
            end
      end
  end.

(** The [continue] and [return] statements of each ending.  After a failed
    commit the body either says [continue] or, in the last pass, falls off
    its end: both go to the next element of [range(max_retries)]. *)
Definition after (attempt : nat) (o : outcome) : control :=
  match o with
  | RequestFailed =>
      if (attempt <? max_retries - 1)%nat then Continue else Return false
  | TokenUnresolved => Continue
  | Unusable =>
      if (attempt <? max_retries - 1)%nat then Continue else Return false
  | Incomplete => Continue
  | Committed => Return true
  | CommitFailed =>
      if (attempt <? max_retries - 1)%nat then Continue else Continue
  | Raised => Return false
  end.

(** [for attempt in todo: ...], then lines 417 and 418. *)
Fixpoint attempts (todo : list nat) (token : string) (w : world) : bool * world :=
  match todo with
  | [] => (false, w)
  | attempt :: rest =>
      let '(o, w') := attempt_once token w in
      match after attempt o with
      | Continue => attempts rest token w'
      | Return result => (result, w')
      end
  end.

(** The three parameters are rebound at lines 339 to 361 before any use. *)
Definition update_cursor_auth (email access_token refresh_token : option string)
    (w : world) : bool * world :=
  match get_token w with
  | None => (false, w)
  | Some token =>
      if negb (Text.truthy token) then (false, w)
      else
        let '(_, w1) := clear_auth_info w in
        attempts (seq 0 max_retries) token w1
  end.

(** ** [activate_card]

    The reply to the POST of [/auth/activate-card] is an argument: either
    [requests.RequestException] is raised by the request or by
    [raise_for_status()], or the body is a JSON object, of which the client
    reads the field [access_token]. *)
Inductive activation : Type :=
  | ActivationError
  | ActivationResult (access_token : field string).

(** How the call ends: [return result] with the object received,
    [return None], or the [TypeError] that [save_token(None)] raises and
    that no handler of the function catches. *)
Inductive activated : Type :=
  | Activated (access_token : field string)
  | NotActivated
  | ActivationRaised.

(** Lines 86 to 107.  [card_number] is the body of the request. *)
Definition activate_card (card_number : string) (answer : activation)
    (w : world) : activated * world :=
  let '(_, w1) := clear_auth_info w in
  match answer with
  | ActivationError => (NotActivated, w1)
  | ActivationResult result =>
      match result with
      | Absent => (Activated result, w1)
      | Null => (ActivationRaised, w1)
      | Val access_token => (Activated result, save_token access_token w1)
      end
  end.

(** ** [LoginWindow.update_auth_status] of [main.py]

    Lines 446 to 458; the result is the text put on the status label.  A
    value [None] is formatted as the word [None]. *)
Definition format_value (v : option string) : string :=
  match v with
  | Some s => s
  | None => "None"
  end.

Definition update_auth_status (w : world) : string * world :=
  let '(auth_info, w') := get_auth_info w in
  if bool_decide (auth_info ≠ ∅)
  then ("当前认证信息：" +:+ String Text.LF "Email: "
          +:+ format_value (default (Some unknown_email) (auth_info !! "email")),
        w')
  else ("未获取到认证信息", w').

(** The requests of a log that went to the provisioning endpoint. *)
Definition is_fetch (rq : request) : bool :=
  match rq with
  | GetCursorToken _ => true
  | GetRefreshToken _ _ _ => false
  end.

Definition fetches (w : world) : nat := length (List.filter is_fetch (sent w)).

(** ** Notions used to state the properties *)

(** No carriage return and no line feed in [s]. *)
Fixpoint no_linebreak (s : string) : bool :=
  match s with
  | EmptyString => true
  | String c r =>
      negb (Ascii.eqb c Text.LF) && negb (Ascii.eqb c Text.CR) && no_linebreak r
  end.

(** [s] neither begins nor ends with a whitespace character. *)
Definition no_outer_space (s : string) : bool :=
  match Text.drop_first Text.whitespace s,
        Text.drop_first (String.rev <$> Text.whitespace) (String.rev s) with
  | None, None => true
  | _, _ => false
  end.

(** The value of the first row with key [key], if the table has one. *)
Fixpoint value_of (key : string) (t : table) : option string :=
  match t with
  | [] => None
  | (k, v) :: t' => if String.eqb k key then Some v else value_of key t'
  end.

(** The effect of the loop of [update_auth] on the rows, one pair at a time. *)
Definition upsert_row (t : table) (kv : row) : table :=
  if decide (Sql.count kv.1 t = O)
  then Sql.insert kv.1 kv.2 t
  else Sql.update kv.1 kv.2 t.

(** The five keys that hold the token. *)
Definition token_aliases : list string :=
  [ "cursorAuth/cachedAccessToken"; "cursorAuth/accessToken";
    "cursorAuth/token"; "cursorAuth/refreshToken";
    "cursorAuth/cachedRefreshToken" ].

(** The field names under which [get_auth_info] reports the stored rows. *)
Definition stored_fields (t : table) : list string :=
  (λ kv, Text.last_segment kv.1) <$> Sql.select_auth t.

(** Number of statements of [update_auth] up to and including [commit()],
    the [connect] included. *)
Definition statements_to_commit (updates : list row) : nat :=
  (2 + 2 * length updates + 1)%nat.

(** [w'] differs from [w] in the store and its fault plans at most. *)
Definition outside_store (w w' : world) : Prop :=
  token_file w' = token_file w ∧ linesep w' = linesep w ∧
  net w' = net w ∧ sent w' = sent w.

(** Does a connection with fault plan [plan] get through the first [n]
    statements? *)
Definition survives (plan : fault) (n : nat) : bool :=
  match plan with
  | None => true
  | Some k => (n <=? k)%nat
  end.

(** The value that the pairs of [l] leave under [key]: that of the last
    pair with this key, if there is one. *)
Fixpoint written (key : string) (l : list row) : option string :=
  match l with
  | [] => None
  | (k, v) :: l' =>
      match written key l' with
      | Some x => Some x
      | None => if String.eqb k key then Some v else None
      end
  end.

(** No carriage return in [s]. *)
Fixpoint no_cr (s : string) : bool :=
  match s with
  | EmptyString => true
  | String c r => negb (Ascii.eqb c Text.CR) && no_cr r
  end.

(** The two values of [os.linesep] on the platforms that
    [CursorAuthManager] supports. *)
Definition posix_or_windows (w : world) : Prop :=
  linesep w = String Text.LF "" ∨ linesep w = String Text.CR (String Text.LF "").

(** The keys of the rows, in order. *)
Definition keys (t : table) : list string := fst <$> t.

(** The bearer token a request carries. *)
Definition bearer (rq : request) : string :=
  match rq with
  | GetCursorToken b => b
  | GetRefreshToken b _ _ => b
  end.

(** The value of the last of [rows] that [get_auth_info] files under the
    field name [f]. *)
Fixpoint last_value (f : string) (rows : table) : option string :=
  match rows with
  | [] => None
  | (k, v) :: rows' =>
      match last_value f rows' with
      | Some x => Some x
      | None => if String.eqb (Text.last_segment k) f then Some v else None
      end
  end.

(** What [get_auth_info] reports under [f] when no row provides it. *)
Definition default_field (f : string) : option (option string) :=
  if String.eqb f "email" then Some (Some unknown_email)
  else if String.eqb f "accessToken" || String.eqb f "refreshToken" then Some None
  else None.

(** The mapping [get_auth_info] reads when the namespace holds what
    [update_auth] writes for [email] and the token [jwt], and nothing else. *)
Definition committed_auth_info (email jwt : string) : gmap string (option string) :=
  list_to_map
    [ ("cachedSignUpType", Some "Auth_0"); ("signUpType", Some "Auth_0");
      ("isLoggedIn", Some "true"); ("stripeMembershipType", Some "free_trial");
      ("cachedEmail", Some email); ("email", Some email);
      ("cachedAccessToken", Some jwt); ("accessToken", Some jwt);
      ("token", Some jwt); ("refreshToken", Some jwt);
      ("cachedRefreshToken", Some jwt) ].

(** The table has a row with key [k], and every such row holds [v]. *)
Definition settled (k v : string) (t : table) : Prop :=
  Sql.count k t ≠ O ∧ Sql.update k v t = t.

(** The two connections of [clear_auth_info], the one of the constructor and
    the one of the [DELETE], run three statements each ([connect] included):
    do their fault plans let them through? *)
Definition clear_unhindered (w : world) : bool :=
  forallb (λ plan, survives plan 3) (take 2 (db_faults w)).

(** A pass that leaves the account aside: no call of [update_auth], and the
    loop goes on or, for an unusable account in the last pass, ends. *)
Definition skipped (o : outcome) : bool :=
  match o with
  | TokenUnresolved | Unusable | Incomplete => true
  | RequestFailed | Committed | CommitFailed | Raised => false
  end.

(** *** Sample worlds *)

Definition account (email refresh_token status : string) (pull_count : Z) : body :=
  Body (Val email) (Val "secret") (Val refresh_token) (Val status) (Val pull_count).

(** A POSIX machine with the token ["tok-1"], an empty store, and a script
    of replies and fault plans. *)
Definition sample (replies : list reply) (faults : list fault) : world :=
  World (Some "tok-1") (Text.bytes [10%nat]) [] faults replies [].

(** * Properties *)

(** ** Text *)

Lemma rev_app_rev_app (s a b : string) :
  String.rev_app (String.rev_app s a) b = String.rev_app a (s +:+ b).
Proof.
  revert a b. induction s as [|c s IH]; intros a b; simpl; [done|].
  by rewrite IH.
Qed.

Lemma append_empty (s : string) : s +:+ "" = s.
Proof.
  induction s as [|c s IH]; [done|].
  change (String c s +:+ "") with (String c (s +:+ "")). by rewrite IH.
Qed.

Lemma rev_rev (s : string) : String.rev (String.rev s) = s.
Proof. unfold String.rev. rewrite rev_app_rev_app. simpl. apply append_empty. Qed.

Lemma after_prefix_length (p s rest : string) :
  Text.after_prefix p s = Some rest →
  String.length s = (String.length p + String.length rest)%nat.
Proof.
  revert s. induction p as [|a p IH]; intros s; simpl; [by intros [= ->]|].
  destruct s as [|b s]; [done|]. destruct (Ascii.eqb a b); [|done].
  intros H. simpl. by rewrite (IH s H).
Qed.

Lemma drop_first_shorter (pats : list string) (s rest : string) :
  Forall (λ p, p ≠ "") pats →
  Text.drop_first pats s = Some rest →
  (String.length rest < String.length s)%nat.
Proof.
  induction 1 as [|p pats Hp _ IH]; simpl; [done|].
  destruct (Text.after_prefix p s) as [r|] eqn:E; [|done].
  intros [= ->]. apply after_prefix_length in E. destruct p; [done|]. simpl in E. lia.
Qed.

(** The fuel of [strip_go] is enough: what it returns starts with none of
    the patterns. *)
Lemma strip_go_done (pats : list string) (fuel : nat) (s : string) :
  Forall (λ p, p ≠ "") pats →
  (String.length s ≤ fuel)%nat →
  Text.drop_first pats (Text.strip_go pats fuel s) = None.
Proof.
  intros Hp. revert s. induction fuel as [|fuel IH]; intros s Hs; simpl.
  - destruct (Text.drop_first pats s) as [r|] eqn:E; [|done].
    apply drop_first_shorter in E; [lia|done].
  - destruct (Text.drop_first pats s) as [r|] eqn:E; [|done].
    apply IH. apply drop_first_shorter in E; [lia|done].
Qed.

Lemma rev_app_length (s a : string) :
  String.length (String.rev_app s a) = (String.length s + String.length a)%nat.
Proof.
  revert a. induction s as [|c s IH]; intros a; simpl; [done|].
  rewrite IH. simpl. lia.
Qed.

Lemma lstrip_done (s : string) :
  Text.drop_first Text.whitespace (Text.lstrip s) = None.
Proof.
  apply strip_go_done; [|done].
  unfold Text.whitespace. repeat (apply Forall_cons; split; [done|]). apply Forall_nil_2.
Qed.

Lemma rstrip_done (s : string) :
  Text.drop_first (String.rev <$> Text.whitespace) (String.rev (Text.rstrip s)) = None.
Proof.
  unfold Text.rstrip. rewrite rev_rev. apply strip_go_done.
  - unfold Text.whitespace. repeat (apply Forall_cons; split; [done|]). apply Forall_nil_2.
  - unfold String.rev. rewrite rev_app_length. simpl. lia.
Qed.

Lemma strip_go_fixed (pats : list string) (fuel : nat) (s : string) :
  Text.drop_first pats s = None → Text.strip_go pats fuel s = s.
Proof. intros H. destruct fuel; simpl; [done|]. by rewrite H. Qed.

Lemma strip_fixed (s : string) : no_outer_space s = true → Text.strip s = s.
Proof.
  unfold no_outer_space, Text.strip, Text.rstrip, Text.lstrip.
  destruct (Text.drop_first Text.whitespace s) eqn:Hl; [done|].
  destruct (Text.drop_first _ (String.rev s)) eqn:Hr; [done|]. intros _.
  rewrite (strip_go_fixed _ _ _ Hl), (strip_go_fixed _ _ _ Hr). apply rev_rev.
Qed.

Lemma newlines_out_fixed (linesep s : string) :
  no_linebreak s = true → Text.newlines_out linesep s = s.
Proof.
  induction s as [|c s IH]; simpl; [done|].
  destruct (Ascii.eqb c Text.LF); simpl; [done|].
  destruct (Ascii.eqb c Text.CR); simpl; [done|].
  intros H. by rewrite IH.
Qed.

Lemma newlines_in_fixed (s : string) :
  no_linebreak s = true → Text.newlines_in s = s.
Proof.
  induction s as [|c s IH]; simpl; [done|].
  destruct (Ascii.eqb c Text.LF); simpl; [done|].
  destruct (Ascii.eqb c Text.CR); simpl; [done|].
  intros H. by rewrite IH.
Qed.

(** ** Token validity *)

(** C3. The test applied to a refresh token accepts a string exactly when it
    starts with the two characters "ey" (such a string is not empty);
    whatever follows the prefix plays no part. *)
Theorem token_valid_iff_ey_prefix (t : string) :
  token_valid (Some t) = true ↔ t ≠ "" ∧ ∃ rest, t = "ey" +:+ rest.
Proof.
  unfold token_valid, token_ok, Text.startswith. split.
  - intros [Ht Hp]%andb_true_iff. split; [by destruct t|].
    destruct t as [|c1 [|c2 rest]]; cbn [String.prefix] in Hp; try done.
    + by destruct (ascii_dec "e" c1).
    + destruct (ascii_dec "e" c1) as [<-|]; [|done].
      destruct (ascii_dec "y" c2) as [<-|]; [|done]. by exists rest.
  - intros [_ [rest ->]]. by destruct rest.
Qed.

(** ** What each operation leaves alone *)

Lemma outside_store_refl (w : world) : outside_store w w.
Proof. by repeat split. Qed.

Lemma outside_store_trans (w1 w2 w3 : world) :
  outside_store w1 w2 → outside_store w2 w3 → outside_store w1 w3.
Proof.
  intros (?&?&?&?) (?&?&?&?). repeat split; congruence.
Qed.

Lemma with_connection_outside {A : Type} (body : sql A) (w : world) :
  outside_store w (with_connection body w).2.
Proof.
  unfold with_connection. destruct (next_fault w) as [plan rest].
  destruct (tick _) as [c|]; [|by repeat split].
  destruct (body c) as [c' r]. by repeat split.
Qed.

Lemma CursorAuthManager_outside (w : world) : outside_store w (CursorAuthManager w).2.
Proof. apply with_connection_outside. Qed.

Lemma update_auth_outside (e a r : option string) (w : world) :
  outside_store w (update_auth e a r w).2.
Proof.
  unfold update_auth.
  pose proof (with_connection_outside (update_auth_session (updates_of e r)) w) as H.
  by destruct (with_connection _ w).
Qed.

Lemma get_auth_info_outside (w : world) : outside_store w (get_auth_info w).2.
Proof.
  unfold get_auth_info.
  pose proof (with_connection_outside (execute (λ t, (t, Sql.select_auth t))) w) as H.
  destruct (with_connection _ w) as [[rows|] w']; exact H.
Qed.

Lemma clear_auth_info_effect (w : world) :
  let w' := (clear_auth_info w).2 in
  token_file w' = None ∧ linesep w' = linesep w ∧
  net w' = net w ∧ sent w' = sent w.
Proof.
  unfold clear_auth_info.
  pose proof (CursorAuthManager_outside (unlink_token w)) as (H1&H2&H3&H4).
  destruct (CursorAuthManager (unlink_token w)) as [[u|] w2]; simpl in *; [|done].
  pose proof (with_connection_outside
    (execute (λ t, (Sql.delete_auth t, tt)) ;; commit) w2) as (G1&G2&G3&G4).
  destruct (with_connection _ w2) as [r w3]; simpl in *.
  repeat split; congruence.
Qed.

Lemma post_effect (rq : request) (w : world) :
  let w' := (post rq w).2 in
  token_file w' = token_file w ∧ linesep w' = linesep w ∧ db w' = db w ∧
  db_faults w' = db_faults w ∧ sent w' = sent w ++ [rq] ∧ net w' = tail (net w).
Proof. unfold post. by destruct (net w). Qed.

Lemma fetches_post (rq : request) (w : world) :
  fetches (post rq w).2 = (fetches w + if is_fetch rq then 1 else 0)%nat.
Proof.
  unfold fetches. destruct (post_effect rq w) as (_&_&_&_&->&_).
  rewrite List.filter_app, length_app. simpl. by destruct (is_fetch rq).
Qed.

Lemma fetches_outside (w w' : world) : outside_store w w' → fetches w' = fetches w.
Proof. intros (_&_&_&H). unfold fetches. by rewrite H. Qed.

Lemma resolve_token_effect (token : string) (e p r : option string) (w : world) :
  let w' := (resolve_token token e p r w).2 in
  token_file w' = token_file w ∧ db w' = db w ∧ db_faults w' = db_faults w ∧
  fetches w' = fetches w.
Proof.
  unfold resolve_token. destruct (token_valid r); [done|].
  pose proof (post_effect (GetRefreshToken token e p) w) as (H1&_&H2&H3&_).
  pose proof (fetches_post (GetRefreshToken token e p) w) as H4.
  destruct (post _ w) as [[| |d] w1]; simpl in *; try (split_and!; [done..|lia]).
  destruct (token_valid _); simpl; split_and!; try done; lia.
Qed.

Lemma attempt_once_effect (token : string) (w : world) :
  let w' := (attempt_once token w).2 in
  token_file w' = token_file w ∧ fetches w' = S (fetches w).
Proof.
  unfold attempt_once.
  pose proof (post_effect (GetCursorToken token) w) as (H1&_).
  pose proof (fetches_post (GetCursorToken token) w) as H2. simpl in H2.
  destruct (post _ w) as [[| |data] w1]; simpl in *; try (split; [done|lia]).
  pose proof (resolve_token_effect token (dict_get (f_email data))
    (dict_get (f_password data)) (dict_get (f_refresh_token data)) w1) as (R1&_&_&R2).
  destruct (resolve_token _ _ _ _ w1) as [[jwt|] w2]; simpl in *;
    [|split; [congruence|lia]].
  destruct (status_excluded _); simpl; [split; [congruence|lia]|].
  destruct (dict_get_default _ _) as [n|]; simpl; [|split; [congruence|lia]].
  destruct (5 <=? n); simpl; [split; [congruence|lia]|].
  destruct (negb _); simpl; [split; [congruence|lia]|].
  pose proof (CursorAuthManager_outside w2) as I.
  destruct (CursorAuthManager w2) as [[u|] w3]; simpl in *.
  - pose proof (update_auth_outside (dict_get (f_email data)) (Some jwt) (Some jwt) w3) as U.
    destruct (update_auth _ _ _ w3) as [ok w4]; simpl in *.
    pose proof (outside_store_trans _ _ _ I U) as O.
    rewrite (fetches_outside _ _ O). destruct O as (->&_). split; [congruence|lia].
  - rewrite (fetches_outside _ _ I). destruct I as (->&_). split; [congruence|lia].
Qed.

Lemma attempts_effect (todo : list nat) (token : string) (w : world) :
  let w' := (attempts todo token w).2 in
  token_file w' = token_file w ∧
  (fetches w ≤ fetches w' ≤ fetches w + length todo)%nat.
Proof.
  revert w. induction todo as [|attempt rest IH]; intros w; simpl; [split; [done|lia]|].
  pose proof (attempt_once_effect token w) as (H1&H2).
  destruct (attempt_once token w) as [o w1]; simpl in *.
  destruct (after attempt o).
  - destruct (IH w1) as (G1&G2). split; [congruence|lia].
  - simpl. split; [done|lia].
Qed.

(** ** TokenStore *)

(** C8, as the code has it. [get_token] returns what [save_token] wrote after
    the translation of line ends by the text-mode file and after [strip()]:
    the saved token comes back unchanged when it has no line break and no
    white space at either end, whatever the file held before. *)
Theorem get_after_save (t : string) (w : world) :
  get_token (save_token t w)
    = Some (Text.strip (Text.newlines_in (Text.newlines_out (linesep w) t)))
  ∧ (no_linebreak t = true → no_outer_space t = true →
     get_token (save_token t w) = Some t).
Proof.
  split; [done|]. intros Hl Hs. unfold get_token, save_token; simpl.
  by rewrite newlines_out_fixed, newlines_in_fixed, strip_fixed.
Qed.

Lemma get_after_save_witness :
  get_token (save_token "ey.abc" (sample [] [])) = Some "ey.abc".
Proof. apply (get_after_save "ey.abc" (sample [] [])); reflexivity. Defined.

(** C8, as stated, fails: a token that starts with a space is not read back
    as it was saved. *)
Lemma get_after_save_counterexample :
  get_token (save_token " tok-2" (sample [] [])) ≠ Some " tok-2".
Proof. vm_compute. discriminate. Qed.

(** ** Sessions on the store *)

Lemma select_after_delete (t : table) : Sql.select_auth (Sql.delete_auth t) = [].
Proof.
  induction t as [|[k v] t IH]; simpl; [done|].
  destruct (Sql.like_cursorAuth k) eqn:E; simpl; [done|]. by rewrite E.
Qed.

Lemma CursorAuthManager_db (w : world) : db (CursorAuthManager w).2 = db w.
Proof.
  unfold CursorAuthManager, _init_database, with_connection.
  destruct (next_fault w) as [[[|[|[|n]]]|] rest]; done.
Qed.

Lemma delete_session_db (w : world) :
  let r := with_connection (execute (λ t, (Sql.delete_auth t, tt)) ;; commit) w in
  db r.2 = if bool_decide (is_Some r.1) then Sql.delete_auth (db w) else db w.
Proof.
  unfold with_connection.
  destruct (next_fault w) as [[[|[|[|n]]]|] rest]; done.
Qed.

Lemma clear_auth_info_db (w : world) :
  db (clear_auth_info w).2
    = if (clear_auth_info w).1 then Sql.delete_auth (db w) else db w.
Proof.
  unfold clear_auth_info.
  pose proof (CursorAuthManager_db (unlink_token w)) as H.
  destruct (CursorAuthManager (unlink_token w)) as [[u|] w2]; simpl in *; [|done].
  pose proof (delete_session_db w2) as G. simpl in G.
  destruct (with_connection _ w2) as [r w3]; simpl in *. by rewrite G, H.
Qed.

(** [clear_auth_info] reports success exactly when neither of its two
    connections raises. *)
Lemma clear_auth_info_reports (w : world) :
  (clear_auth_info w).1 = clear_unhindered w.
Proof.
  unfold clear_auth_info, clear_unhindered, CursorAuthManager, _init_database,
    with_connection, next_fault, unlink_token, set_token_file.
  cbn [db_faults db].
  destruct (db_faults w) as [|[[|[|[|n1]]]|] [|[[|[|[|n2]]]|] rest]]; done.
Qed.

Lemma select_session (w : world) :
  let r := with_connection (execute (λ t, (t, Sql.select_auth t))) w in
  db r.2 = db w ∧ (r.1 = None ∨ r.1 = Some (Sql.select_auth (db w))).
Proof.
  unfold with_connection.
  destruct (next_fault w) as [[[|[|n]]|] rest]; simpl; auto.
Qed.

(** C9. [clear_auth_info] always removes the token file, so [get_token]
    finds nothing afterwards.  It reports success exactly when the store
    does not raise on its two connections, and then the table is the one
    before the call without the rows of the [cursorAuth/] namespace, of
    which none is left; when the store raises the rows stay.  A run of
    [update_cursor_auth] that found a token therefore ends with the token
    file gone, and a second run started there stops at once, without any
    request. *)
Theorem clear_removes_token (w : world) :
  get_token (clear_auth_info w).2 = None
  ∧ (clear_auth_info w).1 = clear_unhindered w
  ∧ db (clear_auth_info w).2
      = (if clear_unhindered w then Sql.delete_auth (db w) else db w)
  ∧ Sql.select_auth (Sql.delete_auth (db w)) = []
  ∧ ∀ e a r token,
      get_token w = Some token → Text.truthy token = true →
      let w' := (update_cursor_auth e a r w).2 in
      get_token w' = None ∧ update_cursor_auth e a r w' = (false, w').
Proof.
  split_and!.
  - unfold get_token. by destruct (clear_auth_info_effect w) as (->&_).
  - apply clear_auth_info_reports.
  - by rewrite clear_auth_info_db, clear_auth_info_reports.
  - apply select_after_delete.
  - intros e a r token Ht Hn.
    assert (get_token (update_cursor_auth e a r w).2 = None) as Hg.
    { unfold update_cursor_auth. rewrite Ht, Hn. cbn [negb].
      pose proof (clear_auth_info_effect w) as (Hc&_).
      destruct (clear_auth_info w) as [ok w1]. cbn [snd] in Hc.
      destruct (attempts_effect (seq 0 max_retries) token w1) as (Hf&_).
      unfold get_token. by rewrite Hf, Hc. }
    split; [done|]. unfold update_cursor_auth at 1. by rewrite Hg.
Qed.

Lemma clear_removes_token_witness :
  let w := World (Some "tok-1") (Text.bytes [10%nat])
             [("cursorAuth/email", "old@b.com"); ("telemetry.id", "42");
              ("CursorAuth/accessToken", "ey.old")]
             [] [Dict (account "a@b.com" "ey.xyz" "ACTIVE" 0)] [] in
  (clear_auth_info w).1 = true
  ∧ db (clear_auth_info w).2 = [("telemetry.id", "42")]
  ∧ get_token (clear_auth_info w).2 = None
  ∧ get_token (update_cursor_auth None None None w).2 = None.
Proof.
  intros w. destruct (clear_removes_token w) as (Htok&Hok&Hdb&_&Hrun).
  split_and!.
  - rewrite Hok. reflexivity.
  - rewrite Hdb. reflexivity.
  - exact Htok.
  - apply (Hrun None None None "tok-1"); reflexivity.
Defined.

(** ** Reading the namespace *)

Lemma lookup_if_missing (k k' : string) (v : option string)
    (m : gmap string (option string)) :
  if_missing k v m !! k'
    = if decide (k = k') then Some (default v (m !! k)) else m !! k'.
Proof.
  unfold if_missing. destruct (m !! k) as [x|] eqn:E; case_decide; subst; simpl.
  - done.
  - done.
  - by rewrite lookup_insert_eq.
  - by rewrite lookup_insert_ne.
Qed.

Lemma lookup_fields (rows : table) (acc : gmap string (option string)) (k : string) :
  foldl (λ res kv, <[Text.last_segment kv.1 := Some kv.2]> res) acc rows !! k = None
  ↔ acc !! k = None ∧ k ∉ (λ kv, Text.last_segment kv.1) <$> rows.
Proof.
  revert acc. induction rows as [|[key value] rows IH]; intros acc; simpl.
  - split; [intros H; split; [done|apply not_elem_of_nil]|by intros [H _]].
  - rewrite IH, not_elem_of_cons. destruct (decide (Text.last_segment key = k)) as [->|Hne].
    + rewrite lookup_insert_eq. split; [by intros [? _]|by intros (_&?&_)].
    + rewrite lookup_insert_ne by done. split; [by intros [? ?]|by intros (?&_&?)].
Qed.

Lemma get_auth_info_cases (w : world) :
  (get_auth_info w).1 = default_auth_info
  ∨ (get_auth_info w).1
      = if_missing "refreshToken" None
          (if_missing "accessToken" None
             (if_missing "email" (Some unknown_email)
                (foldl (λ res kv, <[Text.last_segment kv.1 := Some kv.2]> res) ∅
                   (Sql.select_auth (db w))))).
Proof.
  unfold get_auth_info. pose proof (select_session w) as [_ H]. simpl in H.
  destruct (with_connection _ w) as [r w']; simpl in *.
  destruct H as [-> | ->]; auto.
Qed.

Lemma default_auth_info_lookup :
  default_auth_info !! "email" = Some (Some unknown_email)
  ∧ default_auth_info !! "accessToken" = Some None
  ∧ default_auth_info !! "refreshToken" = Some None.
Proof.
  unfold default_auth_info. split_and!.
  - by do 2 (rewrite lookup_insert_ne by done); rewrite lookup_insert_eq.
  - by rewrite lookup_insert_ne by done; rewrite lookup_insert_eq.
  - by rewrite lookup_insert_eq.
Qed.

(** C4, as the code has it. [clear_auth_info] reports success exactly when
    the store does not raise on its two connections; after such a call
    [get_auth_info] returns the three defaults and nothing else, the email
    sentinel and the two tokens as [None], whatever rows the namespace held
    before. *)
Theorem read_after_clear (w : world) :
  (clear_auth_info w).1 = clear_unhindered w
  ∧ ((clear_auth_info w).1 = true →
     Sql.select_auth (db (clear_auth_info w).2) = []
     ∧ (get_auth_info (clear_auth_info w).2).1 = default_auth_info).
Proof.
  split; [apply clear_auth_info_reports|]. intros H.
  assert (Sql.select_auth (db (clear_auth_info w).2) = []) as Hs.
  { by rewrite clear_auth_info_db, H, select_after_delete. }
  split; [done|].
  destruct (get_auth_info_cases (clear_auth_info w).2) as [->| ->]; [done|].
  by rewrite Hs.
Qed.

Lemma read_after_clear_witness :
  let w := World (Some "tok-1") (Text.bytes [10%nat])
             [("cursorAuth/email", "old@b.com"); ("telemetry.id", "42");
              ("cursorAuth/accessToken", "ey.old")] [] [] [] in
  (get_auth_info w).1 !! "email" = Some (Some "old@b.com")
  ∧ (clear_auth_info w).1 = true
  ∧ (get_auth_info (clear_auth_info w).2).1 = default_auth_info.
Proof.
  intros w. destruct (read_after_clear w) as [Hok Hread].
  assert ((clear_auth_info w).1 = true) as H by (rewrite Hok; reflexivity).
  split_and!; [reflexivity|exact H|exact (proj2 (Hread H))].
Defined.

(** C4, as stated, fails: the mapping read after a clear is not empty. *)
Lemma read_after_clear_counterexample :
  let w := World (Some "tok-1") (Text.bytes [10%nat])
             [("cursorAuth/email", "old@b.com"); ("telemetry.id", "42")] [] [] [] in
  (clear_auth_info w).1 = true
  ∧ (get_auth_info (clear_auth_info w).2).1 ≠ ∅.
Proof.
  intros w. split; [reflexivity|]. intros H.
  apply (f_equal (λ m : gmap string (option string), m !! "email")) in H.
  rewrite lookup_empty in H.
  destruct (get_auth_info_cases (clear_auth_info w).2) as [E|E];
    rewrite E in H.
  - by rewrite (proj1 default_auth_info_lookup) in H.
  - rewrite !lookup_if_missing in H. repeat case_decide; done.
Qed.

(** C7, as the code has it. [get_auth_info] always returns a mapping that
    has the keys [email], [accessToken] and [refreshToken], and leaves the
    store as it was; a field that no stored row provides gets its default:
    the string [unknown_email] for the email, [None] for either token. *)
Theorem get_auth_info_defaults (w : world) :
  let info := (get_auth_info w).1 in
  db (get_auth_info w).2 = db w
  ∧ (is_Some (info !! "email") ∧ is_Some (info !! "accessToken")
     ∧ is_Some (info !! "refreshToken"))
  ∧ ("email" ∉ stored_fields (db w) → info !! "email" = Some (Some unknown_email))
  ∧ ("accessToken" ∉ stored_fields (db w) → info !! "accessToken" = Some None)
  ∧ ("refreshToken" ∉ stored_fields (db w) → info !! "refreshToken" = Some None).
Proof.
  intros info. split.
  { unfold get_auth_info. pose proof (select_session w) as [H _]. simpl in H.
    by destruct (with_connection _ w) as [[rows|] w']. }
  destruct default_auth_info_lookup as (D1&D2&D3).
  unfold info, stored_fields.
  destruct (get_auth_info_cases w) as [->| ->].
  { rewrite D1, D2, D3. by split_and!. }
  set (m := foldl _ ∅ _).
  pose proof (lookup_fields (Sql.select_auth (db w)) ∅) as L. fold m in L.
  rewrite !lookup_if_missing. repeat (case_decide; try done).
  split; [by split_and!; eexists|]. split_and!.
  - intros Hn. destruct (L "email") as [_ ->]; [done|by rewrite lookup_empty].
  - intros Hn. destruct (L "accessToken") as [_ ->]; [done|by rewrite lookup_empty].
  - intros Hn. destruct (L "refreshToken") as [_ ->]; [done|by rewrite lookup_empty].
Qed.

Lemma get_auth_info_defaults_witness :
  (get_auth_info (sample [] [])).1 !! "email" = Some (Some unknown_email).
Proof.
  apply (get_auth_info_defaults (sample [] [])). vm_compute. apply not_elem_of_nil.
Defined.

(** C7, as stated, fails: the sentinel of a missing email is not the English
    word. *)
Lemma get_auth_info_counterexample :
  ("email" ∉ stored_fields (db (sample [] [])))
  ∧ ((get_auth_info (sample [] [])).1 !! "email" ≠ Some (Some "unknown")).
Proof.
  split.
  - vm_compute. apply not_elem_of_nil.
  - destruct (get_auth_info_cases (sample [] [])) as [E|E]; rewrite E.
    + rewrite (proj1 default_auth_info_lookup). discriminate.
    + vm_compute. discriminate.
Qed.

(** ** The commit of [update_auth] *)

Lemma bind_run {A B : Type} (m : sql A) (k : A → sql B) (c : conn) :
  (m ≫= k) c
    = match m c with
      | (c', Some a) => k a c'
      | (c', None) => (c', None)
      end.
Proof. done. Qed.

Lemma upsert_run (kv : row) (d v : table) (b : fault) :
  upsert kv (Conn d v b)
    = match b with
      | None => (Conn d (upsert_row v kv) None, Some tt)
      | Some (S (S k)) => (Conn d (upsert_row v kv) (Some k), Some tt)
      | Some 1%nat => (Conn d v (Some O), None)
      | Some O => (Conn d v (Some O), None)
      end.
Proof.
  destruct kv as [key value]. unfold upsert, upsert_row, mbind, sql_bind, execute.
  destruct b as [[|[|k]]|]; simpl; try done; by case_decide.
Qed.

Lemma upsert_all_unlimited (l : list row) (d v : table) :
  upsert_all l (Conn d v None) = (Conn d (foldl upsert_row v l) None, Some tt).
Proof.
  revert v. induction l as [|kv l IH]; intros v; [done|].
  cbn [upsert_all foldl]. by rewrite bind_run, upsert_run, IH.
Qed.

Lemma upsert_all_enough (l : list row) (d v : table) (k : nat) :
  (2 * length l ≤ k)%nat →
  upsert_all l (Conn d v (Some k))
    = (Conn d (foldl upsert_row v l) (Some (k - 2 * length l)%nat), Some tt).
Proof.
  revert v k. induction l as [|kv l IH]; intros v k Hk.
  - cbn. by rewrite Nat.sub_0_r.
  - cbn [upsert_all foldl length] in *.
    rewrite bind_run, upsert_run. destruct k as [|[|k]]; [lia..|].
    rewrite IH by lia. do 3 f_equal. lia.
Qed.

Lemma upsert_all_short (l : list row) (d v : table) (k : nat) :
  (k < 2 * length l)%nat →
  let r := upsert_all l (Conn d v (Some k)) in
  durable r.1 = d ∧ r.2 = None.
Proof.
  revert v k. induction l as [|kv l IH]; intros v k Hk; cbn [length] in Hk; [lia|].
  cbn [upsert_all]. rewrite bind_run, upsert_run.
  destruct k as [|[|k]]; [done..|]. apply IH. lia.
Qed.

(** The session of [update_auth] on a connection that is already open: the
    rows become durable once [commit()] has run, and the session ends well
    when the last [SELECT] has run too. *)
Lemma update_auth_session_run (l : list row) (d v : table) (b : fault) :
  let r := update_auth_session l (Conn d v b) in
  durable r.1
    = (if survives b (2 * length l + 2) then foldl upsert_row v l else d)
  ∧ r.2 = (if survives b (2 * length l + 3) then Some tt else None).
Proof.
  unfold update_auth_session, create_table.
  destruct b as [k|]; cbn [survives].
  - destruct k as [|k].
    { rewrite !(proj2 (Nat.leb_gt _ _)) by lia. done. }
    rewrite bind_run. cbn [execute tick budget durable view].
    destruct (decide (2 * length l ≤ k)%nat) as [Hk|Hk].
    + rewrite bind_run, upsert_all_enough by done.
      destruct (k - 2 * length l)%nat as [|[|j]] eqn:E.
      * rewrite !(proj2 (Nat.leb_gt _ _)) by lia. done.
      * rewrite (proj2 (Nat.leb_le _ _)), (proj2 (Nat.leb_gt _ _)) by lia. done.
      * rewrite !(proj2 (Nat.leb_le _ _)) by lia. done.
    + rewrite bind_run.
      destruct (upsert_all_short l d v k ltac:(lia)) as [H1 H2].
      destruct (upsert_all l _) as [c' [u|]]; simpl in *; [done|].
      rewrite !(proj2 (Nat.leb_gt _ _)) by lia. done.
  - rewrite bind_run. cbn [execute tick budget durable view].
    by rewrite bind_run, upsert_all_unlimited.
Qed.

(** [update_auth] as a whole: its connection takes the next fault plan. *)
Lemma update_auth_run (e a r : option string) (w : world) :
  let plan := (next_fault w).1 in
  let l := updates_of e r in
  db (update_auth e a r w).2
    = (if survives plan (statements_to_commit l)
       then foldl upsert_row (db w) l else db w)
  ∧ (update_auth e a r w).1 = survives plan (statements_to_commit l + 1).
Proof.
  unfold update_auth, with_connection, statements_to_commit.
  destruct (next_fault w) as [plan rest]; cbn [fst].
  destruct plan as [[|k]|]; cbn [tick budget survives].
  - done.
  - pose proof (update_auth_session_run (updates_of e r) (db w) (db w) (Some k)) as [H1 H2].
    destruct (update_auth_session _ _) as [c' u]; cbn [fst snd survives] in *.
    rewrite H1, H2.
    replace (2 + 2 * length (updates_of e r) + 1 <=? S k)%nat
      with (2 * length (updates_of e r) + 2 <=? k)%nat
      by (apply eq_true_iff_eq; rewrite !Nat.leb_le; lia).
    replace (2 + 2 * length (updates_of e r) + 1 + 1 <=? S k)%nat
      with (2 * length (updates_of e r) + 3 <=? k)%nat
      by (apply eq_true_iff_eq; rewrite !Nat.leb_le; lia).
    split; [done|]. by destruct (_ + 3 <=? _)%nat.
  - pose proof (update_auth_session_run (updates_of e r) (db w) (db w) None) as [H1 H2].
    destruct (update_auth_session _ _) as [c' u]; cbn [fst snd survives] in *.
    by rewrite H1, H2.
Qed.

Lemma get_app (key : string) (t1 t2 : table) :
  value_of key (t1 ++ t2)
    = match value_of key t1 with Some x => Some x | None => value_of key t2 end.
Proof.
  induction t1 as [|[k v] t1 IH]; simpl; [done|]. by destruct (String.eqb k key).
Qed.

Lemma count_zero (key : string) (t : table) :
  Sql.count key t = O ↔ value_of key t = None.
Proof.
  induction t as [|[k v] t IH]; simpl; [done|]. by destruct (String.eqb k key).
Qed.

Lemma get_update (key k' v' : string) (t : table) :
  value_of key (Sql.update k' v' t)
    = if String.eqb k' key
      then match value_of key t with Some _ => Some v' | None => None end
      else value_of key t.
Proof.
  induction t as [|[k v] t IH]; simpl; [by destruct (String.eqb k' key)|].
  destruct (String.eqb_spec k k') as [->|Hk]; simpl.
  - destruct (String.eqb_spec k' key) as [->|Hk']; [done|]. by rewrite IH.
  - destruct (String.eqb_spec k key) as [->|Hk'].
    + destruct (String.eqb_spec k' key) as [->|]; done.
    + by rewrite IH.
Qed.

Lemma get_upsert_row (key : string) (t : table) (kv : row) :
  value_of key (upsert_row t kv)
    = if String.eqb kv.1 key then Some kv.2 else value_of key t.
Proof.
  destruct kv as [k' v']. unfold upsert_row; simpl. case_decide as Hc.
  - unfold Sql.insert. rewrite get_app. simpl.
    destruct (String.eqb_spec k' key) as [->|Hk].
    + apply count_zero in Hc. by rewrite Hc.
    + by destruct (value_of key t).
  - rewrite get_update. destruct (String.eqb_spec k' key) as [->|Hk]; [|done].
    rewrite count_zero in Hc. by destruct (value_of key t).
Qed.

Lemma get_after_upserts (key : string) (l : list row) (t : table) :
  value_of key (foldl upsert_row t l)
    = match written key l with Some x => Some x | None => value_of key t end.
Proof.
  revert t. induction l as [|[k v] l IH]; intros t; simpl; [done|].
  rewrite IH, get_upsert_row. simpl. by destruct (written key l), (String.eqb k key).
Qed.

Lemma written_alias (e r : option string) (key : string) :
  key ∈ token_aliases →
  written key (updates_of e r) = if token_valid r then r else None.
Proof.
  unfold token_aliases. rewrite !elem_of_cons, elem_of_nil.
  unfold updates_of.
  destruct r as [jwt|]; [destruct (token_valid (Some jwt))|];
    destruct e as [email|];
    intros [->|[->|[->|[->|[->|[]]]]]]; reflexivity.
Qed.

(** C10. The access token given to [update_auth] plays no part: two calls
    that differ in it alone return the same result and leave the same
    world.  After a successful call each of the five token keys holds the
    refresh token when that passes the validity test, and otherwise holds
    what it held before. *)
Theorem update_auth_ignores_access_token
    (e a1 a2 r : option string) (w : world) :
  update_auth e a1 r w = update_auth e a2 r w
  ∧ ((update_auth e a1 r w).1 = true →
     ∀ key, key ∈ token_aliases →
       value_of key (db (update_auth e a1 r w).2)
         = if token_valid r then r else value_of key (db w)).
Proof.
  split; [done|]. intros Hok key Hkey.
  destruct (update_auth_run e a1 r w) as [Hdb Hres].
  rewrite Hok in Hres. rewrite Hdb.
  assert (survives (next_fault w).1 (statements_to_commit (updates_of e r)) = true) as ->.
  { destruct (next_fault w).1 as [k|]; [|done]. cbn [survives] in *.
    symmetry in Hres. apply Nat.leb_le in Hres. apply Nat.leb_le. lia. }
  rewrite get_after_upserts, (written_alias e r key Hkey).
  destruct (token_valid r) eqn:Hv; [|done]. by destruct r.
Qed.

Lemma update_auth_ignores_access_token_witness :
  value_of "cursorAuth/accessToken"
    (db (update_auth (Some "a@b.com") (Some "other") (Some "ey.xyz") (sample [] [])).2)
  = Some "ey.xyz".
Proof.
  apply (update_auth_ignores_access_token
           (Some "a@b.com") (Some "other") None (Some "ey.xyz") (sample [] [])).
  - reflexivity.
  - unfold token_aliases. rewrite !elem_of_cons. auto.
Defined.

(** C6, as the code has it. When the engine raises before [commit()] has
    run, be it at [connect], at one of the statements of the loop or at the
    [commit()] itself, [update_auth] reports failure and the store holds the
    rows it held before the call: none of the writes of the call persists. *)
Theorem aborted_commit_keeps_store
    (e a r : option string) (w : world) (k : nat) (rest : list fault) :
  db_faults w = Some k :: rest →
  (k < statements_to_commit (updates_of e r))%nat →
  (update_auth e a r w).1 = false ∧ db (update_auth e a r w).2 = db w.
Proof.
  intros Hf Hk. destruct (update_auth_run e a r w) as [Hdb Hres].
  unfold next_fault in *. rewrite Hf in *. cbn [fst survives] in *.
  rewrite Hres, Hdb. rewrite !(proj2 (Nat.leb_gt _ _)) by lia. done.
Qed.

Lemma aborted_commit_keeps_store_witness :
  let w := World None "" [("cursorAuth/email", "old@b.com")] [Some 5%nat] [] [] in
  (update_auth (Some "a@b.com") None (Some "ey.xyz") w).1 = false
  ∧ db (update_auth (Some "a@b.com") None (Some "ey.xyz") w).2
      = [("cursorAuth/email", "old@b.com")].
Proof.
  intros w.
  apply (aborted_commit_keeps_store (Some "a@b.com") None (Some "ey.xyz") w 5 []).
  - reflexivity.
  - vm_compute. lia.
Defined.

(** C6, as stated, fails. The plan [Some 5] lets [connect], [CREATE TABLE],
    the first [SELECT COUNT], the first [INSERT] and the second
    [SELECT COUNT] through and raises at the second [INSERT]: the connection
    has written the first key, [update_auth] reports failure, and the first
    key is not in the store. *)
Lemma aborted_commit_counterexample :
  let l := updates_of (Some "a@b.com") (Some "ey.xyz") in
  let w := sample [] [Some 5%nat] in
  view (update_auth_session l (Conn (db w) (db w) (Some 4%nat))).1
    = [("cursorAuth/cachedSignUpType", "Auth_0")]
  ∧ (update_auth (Some "a@b.com") None (Some "ey.xyz") w).1 = false
  ∧ value_of "cursorAuth/cachedSignUpType"
      (db (update_auth (Some "a@b.com") None (Some "ey.xyz") w).2)
    ≠ Some "Auth_0".
Proof. vm_compute. split_and!; [done|done|discriminate]. Qed.

(** ** The retry loop *)

Lemma status_excluded_iff (status : option string) :
  status_excluded status = true
  ↔ status = Some "EXCEEDED" ∨ status = Some "DEPLETED".
Proof.
  destruct status as [s|]; simpl.
  - rewrite orb_true_iff, !String.eqb_eq. split; intros [H|H]; simplify_eq; auto.
  - split; [done|]. by intros [|].
Qed.

Lemma resolve_token_some
    (token : string) (e p r : option string) (w w2 : world) (jwt : string) :
  resolve_token token e p r w = (Some jwt, w2) →
  token_ok jwt = true
  ∧ (r = Some jwt
     ∨ ∃ d, head (net w) = Some (Dict d) ∧ dict_get (f_refresh_token d) = Some jwt).
Proof.
  unfold resolve_token. destruct (token_valid r) eqn:Hr.
  - intros [= -> <-]. split; [done|by left].
  - unfold post. destruct (net w) as [|[| |d] rest]; try done. cbn [fst snd].
    destruct (token_valid (dict_get (f_refresh_token d))) eqn:Hd; [|done].
    intros [= H _]. rewrite H in Hd. split; [done|]. right. by exists d.
Qed.

(** C1, as the code has it. A fetched account with an integer pull count
    is left aside without a commit exactly when its token cannot be
    resolved, or its status is EXCEEDED or DEPLETED, or its pull count is at
    least 5, or its email is missing or empty; the store is then the one the
    pass started with.  The pass ends as [Unusable], the status and quota
    rule, exactly when the token is resolved and the status is EXCEEDED or
    DEPLETED or the pull count at least 5, whatever the status in the latter
    case. *)
Theorem account_skipped_iff
    (token : string) (w w1 : world) (data : body) (n : Z) :
  post (GetCursorToken token) w = (Dict data, w1) →
  dict_get_default (f_pull_count data) 0 = Some n →
  let email := dict_get (f_email data) in
  let status := dict_get (f_status data) in
  let resolved :=
    (resolve_token token email (dict_get (f_password data))
       (dict_get (f_refresh_token data)) w1).1 in
  let quota := status = Some "EXCEEDED" ∨ status = Some "DEPLETED" ∨ 5 ≤ n in
  let pass := attempt_once token w in
  (skipped pass.1 = true ↔ resolved = None ∨ quota ∨ truthy email = false)
  ∧ (pass.1 = Unusable ↔ resolved ≠ None ∧ quota)
  ∧ (skipped pass.1 = true → db pass.2 = db w).
Proof.
  intros Hpost Hn email status resolved quota pass.
  assert (quota ↔ status_excluded status = true ∨ 5 ≤ n) as Hq.
  { unfold quota. pose proof (status_excluded_iff status). tauto. }
  pose proof (resolve_token_effect token email (dict_get (f_password data))
    (dict_get (f_refresh_token data)) w1) as (_&Hdb2&_).
  pose proof (post_effect (GetCursorToken token) w) as (_&_&Hdb1&_).
  rewrite Hpost in Hdb1. cbn [snd] in Hdb1.
  unfold pass, resolved, attempt_once. rewrite Hpost, Hn. fold email status.
  destruct (resolve_token token email _ _ w1) as [[jwt|] w2] eqn:Er;
    cbn [fst snd skipped] in *.
  2:{ split_and!; [by split; auto| |congruence].
      split; [done|]. by intros [? _]. }
  destruct (resolve_token_some _ _ _ _ _ _ _ Er) as [Hj _].
  assert (Text.truthy jwt = true) as Hjt by (by apply andb_true_iff in Hj as [? _]).
  destruct (status_excluded status) eqn:Es; cbn [fst snd skipped].
  { split_and!; [|split; [|done]|congruence]; try tauto.
    intros _. split; [done|tauto]. }
  destruct (Z.leb_spec 5 n) as [Hle|Hlt]; cbn [fst snd skipped].
  { split_and!; [|split; [|done]|congruence]; try tauto.
    intros _. split; [done|tauto]. }
  assert (¬ quota) as Hnq by (rewrite Hq; intros [?|?]; [done|lia]).
  cbn [forallb]. change (truthy (Some jwt)) with (Text.truthy jwt).
  rewrite Hjt. cbn [andb]. rewrite andb_true_r.
  destruct (truthy email) eqn:Et; cbn [negb fst snd skipped].
  2:{ split_and!; [by split; auto| |congruence]. split; [done|tauto]. }
  assert (∀ o : outcome, skipped o = false →
            (skipped o = true ↔ None = Some jwt ∨ quota ∨ true = false)
            ∧ (o = Unusable ↔ Some jwt ≠ None ∧ quota)
            ∧ (skipped o = true → True)) as Hrest.
  { intros o Ho. rewrite Ho. split_and!; [|split; [by intros ->|tauto]|done].
    split; [done|]. intros [?|[?|?]]; [done|tauto|done]. }
  destruct (CursorAuthManager w2) as [[u|] w3]; cbn [fst snd].
  - destruct (update_auth _ _ _ w3) as [[|] w4]; cbn [fst snd].
    + destruct (Hrest Committed eq_refl) as (H1&H2&_).
      split_and!; [| |done]; [split; [done|]|exact H2].
      intros [?|[?|?]]; [done|tauto|done].
    + destruct (Hrest CommitFailed eq_refl) as (H1&H2&_).
      split_and!; [| |done]; [split; [done|]|exact H2].
      intros [?|[?|?]]; [done|tauto|done].
  - destruct (Hrest Raised eq_refl) as (H1&H2&_).
    split_and!; [| |done]; [split; [done|]|exact H2].
    intros [?|[?|?]]; [done|tauto|done].
Qed.

Lemma account_skipped_iff_witness :
  let w := sample [Dict (account "a@b.com" "ey.xyz" "ACTIVE" 5)] [] in
  skipped (attempt_once "tok-1" w).1 = true
  ∧ (attempt_once "tok-1" w).1 = Unusable
  ∧ db (attempt_once "tok-1" w).2 = db w.
Proof.
  intros w.
  destruct (account_skipped_iff "tok-1" w (post (GetCursorToken "tok-1") w).2
    (account "a@b.com" "ey.xyz" "ACTIVE" 5) 5 eq_refl eq_refl) as (Hs&Hu&Hdb).
  assert (skipped (attempt_once "tok-1" w).1 = true) as H.
  { apply Hs. right. left. right. right. reflexivity. }
  split_and!; [exact H| |exact (Hdb H)].
  apply Hu. split; [discriminate|]. right. right. reflexivity.
Defined.

(** C1, as stated, fails: an account with an empty email, a valid token,
    the status ACTIVE and no pull is left aside without a commit, and the
    loop goes on, though neither its status nor its pull count excludes
    it. *)
Lemma account_skipped_counterexample :
  let data := account "" "ey.xyz" "ACTIVE" 0 in
  let w := sample [Dict data] [] in
  let pass := attempt_once "tok-1" w in
  pass.1 = Incomplete
  ∧ skipped pass.1 = true ∧ after 0 pass.1 = Continue ∧ db pass.2 = db w
  ∧ ¬ (dict_get (f_status data) = Some "EXCEEDED"
       ∨ dict_get (f_status data) = Some "DEPLETED"
       ∨ (∃ n, dict_get_default (f_pull_count data) 0 = Some n ∧ 5 ≤ n)).
Proof.
  split_and!; try reflexivity.
  intros [H|[H|(n&H&Hn)]]; try discriminate.
  injection H as <-. lia.
Qed.

Lemma attempt_once_request_error (token : string) (w : world) (rest : list reply) :
  net w = RequestError :: rest →
  attempt_once token w
    = (RequestFailed,
       World (token_file w) (linesep w) (db w) (db_faults w) rest
         (sent w ++ [GetCursorToken token])).
Proof. intros H. unfold attempt_once, post. by rewrite H. Qed.

Lemma attempts_request_failed
    (attempt : nat) (rest : list nat) (token : string) (w w' : world) :
  attempt_once token w = (RequestFailed, w') →
  attempts (attempt :: rest) token w
    = if (attempt <? max_retries - 1)%nat
      then attempts rest token w' else (false, w').
Proof.
  intros H. cbn [attempts]. rewrite H. cbn [after].
  by destruct (attempt <? max_retries - 1)%nat.
Qed.

(** C2. A run makes at most [max_retries] = 3 requests to the provisioning
    endpoint.  When the first three replies are network errors the run
    fails after exactly three requests and reads no fourth reply.  A network
    error in a pass before the last does not end the loop (the next pass
    runs), in the last pass it ends the run with failure. *)
Theorem retry_loop_bounded (e a r : option string) (w : world) :
  let run := update_cursor_auth e a r w in
  (fetches run.2 ≤ fetches w + max_retries)%nat
  ∧ (∀ token rest,
       get_token w = Some token → Text.truthy token = true →
       net w = RequestError :: RequestError :: RequestError :: rest →
       run.1 = false
       ∧ sent run.2
           = sent w ++ [GetCursorToken token; GetCursorToken token;
                        GetCursorToken token]
       ∧ net run.2 = rest)
  ∧ (∀ attempt rest token w0 w',
       attempt_once token w0 = (RequestFailed, w') →
       attempts (attempt :: rest) token w0
         = if (attempt <? max_retries - 1)%nat
           then attempts rest token w' else (false, w')).
Proof.
  intros run. split_and!.
  - unfold run, update_cursor_auth.
    destruct (get_token w) as [token|]; [|simpl; lia].
    destruct (negb _); [simpl; lia|].
    pose proof (clear_auth_info_effect w) as (_&_&_&Hs).
    destruct (clear_auth_info w) as [ok w1]. cbn [snd] in Hs.
    destruct (attempts_effect (seq 0 max_retries) token w1) as (_&_&Hb).
    rewrite length_seq in Hb. unfold fetches in *. rewrite Hs in Hb. exact Hb.
  - intros token rest Ht Hn Hnet. unfold run, update_cursor_auth.
    rewrite Ht, Hn. cbn [negb].
    pose proof (clear_auth_info_effect w) as (_&_&Hn1&Hs1).
    destruct (clear_auth_info w) as [ok w1]. cbn [snd] in *.
    rewrite Hnet in Hn1. change (seq 0 max_retries) with [0; 1; 2]%nat.
    do 3 (erewrite attempts_request_failed
            by (apply attempt_once_request_error; cbn [net]; done);
          cbn [Nat.ltb Nat.leb max_retries Nat.sub]).
    cbn [fst snd sent net]. rewrite Hs1, <- !app_assoc. done.
  - intros attempt rest token w0 w'. apply attempts_request_failed.
Qed.

Lemma retry_loop_bounded_witness :
  let w := sample [RequestError; RequestError; RequestError;
                   Dict (account "a@b.com" "ey.xyz" "ACTIVE" 0)] [] in
  let run := update_cursor_auth None None None w in
  run.1 = false
  ∧ sent run.2 = [GetCursorToken "tok-1"; GetCursorToken "tok-1";
                  GetCursorToken "tok-1"]
  ∧ net run.2 = [Dict (account "a@b.com" "ey.xyz" "ACTIVE" 0)].
Proof.
  intros w run.
  destruct (retry_loop_bounded None None None w) as (_&H&_).
  apply (H "tok-1" [Dict (account "a@b.com" "ey.xyz" "ACTIVE" 0)]); reflexivity.
Defined.

(** ** A commit that fails *)

Lemma attempts_true (todo : list nat) (token : string) (w w' : world) :
  attempts todo token w = (true, w') →
  ∃ w0, attempt_once token w0 = (Committed, w').
Proof.
  revert w. induction todo as [|attempt rest IH]; intros w; cbn [attempts]; [done|].
  destruct (attempt_once token w) as [o w1] eqn:E.
  destruct o; cbn [after];
    try destruct (attempt <? max_retries - 1)%nat;
    try (by apply IH); try done.
  all: intros [= <-]; by exists w.
Qed.

(** C5, as the code has it. A failed commit does not end the run: the loop
    goes on to the next pass, which fetches another account; only when the
    failed commit was in the last pass the run ends, with failure.  A run
    that reports success has had a pass whose commit succeeded. *)
Theorem commit_failure_goes_on
    (attempt : nat) (rest : list nat) (token : string) (w w' : world) :
  attempt_once token w = (CommitFailed, w') →
  attempts (attempt :: rest) token w = attempts rest token w'
  ∧ (rest = [] → attempts (attempt :: rest) token w = (false, w'))
  ∧ (rest ≠ [] →
     (fetches w' < fetches (attempts (attempt :: rest) token w).2)%nat)
  ∧ (∀ w'', attempts (attempt :: rest) token w = (true, w'') →
     ∃ w0, attempt_once token w0 = (Committed, w'')).
Proof.
  intros H.
  assert (attempts (attempt :: rest) token w = attempts rest token w') as E.
  { cbn [attempts]. rewrite H. cbn [after]. by destruct (_ <? _)%nat. }
  split_and!.
  - exact E.
  - intros ->. by rewrite E.
  - intros Hne. rewrite E. destruct rest as [|next rest]; [done|].
    cbn [attempts].
    pose proof (attempt_once_effect token w') as (_&H1).
    destruct (attempt_once token w') as [o w1]. cbn [snd] in H1.
    destruct (after next o); [|simpl; lia].
    destruct (attempts_effect rest token w1) as (_&H2&_). lia.
  - intros w''. apply attempts_true.
Qed.

Lemma commit_failure_goes_on_witness :
  let w := (clear_auth_info
              (sample [Dict (account "a@b.com" "ey.one" "ACTIVE" 0);
                       Dict (account "c@d.com" "ey.two" "ACTIVE" 1)]
                      [None; None; None; Some 3%nat])).2 in
  (attempt_once "tok-1" w).1 = CommitFailed
  ∧ attempts [0; 1; 2]%nat "tok-1" w
      = attempts [1; 2]%nat "tok-1" (attempt_once "tok-1" w).2.
Proof.
  intros w. split; [reflexivity|].
  apply (commit_failure_goes_on 0 [1; 2]%nat "tok-1" w (attempt_once "tok-1" w).2).
  reflexivity.
Defined.

(** C5, as stated, fails. The store raises during the commit of the first
    account; the run fetches a second account, commits it and reports
    success. *)
Lemma commit_failure_counterexample :
  let w := sample [Dict (account "a@b.com" "ey.one" "ACTIVE" 0);
                   Dict (account "c@d.com" "ey.two" "ACTIVE" 1)]
                  [None; None; None; Some 3%nat] in
  let run := update_cursor_auth None None None w in
  (attempt_once "tok-1" (clear_auth_info w).2).1 = CommitFailed
  ∧ run.1 = true
  ∧ fetches run.2 = 2%nat
  ∧ value_of "cursorAuth/email" (db run.2) = Some "c@d.com".
Proof. vm_compute. by split_and!. Qed.

(** ** Runs of the model *)

(** The first two accounts are exhausted, the third is committed. *)
Example third_account_committed :
  let w := sample [Dict (account "a@b.com" "ey.one" "EXCEEDED" 0);
                   Dict (account "c@d.com" "ey.two" "DEPLETED" 0);
                   Dict (account "e@f.com" "ey.three" "ACTIVE" 0)] [] in
  let run := update_cursor_auth None None None w in
  run.1 = true
  ∧ fetches run.2 = 3%nat
  ∧ value_of "cursorAuth/cachedEmail" (db run.2) = Some "e@f.com"
  ∧ (λ key, value_of key (db run.2)) <$> token_aliases
      = [Some "ey.three"; Some "ey.three"; Some "ey.three";
         Some "ey.three"; Some "ey.three"].
Proof. vm_compute. by split_and!. Qed.

(** A refresh token that is no JWT is replaced by the one of the second
    endpoint. *)
Example token_from_second_endpoint :
  let w := sample [Dict (account "a@b.com" "opaque" "ACTIVE" 0);
                   Dict (Body Absent Absent (Val "ey.fresh") Absent Absent)] [] in
  let run := update_cursor_auth None None None w in
  run.1 = true
  ∧ sent run.2 = [GetCursorToken "tok-1";
                  GetRefreshToken "tok-1" (Some "a@b.com") (Some "secret")]
  ∧ value_of "cursorAuth/accessToken" (db run.2) = Some "ey.fresh".
Proof. vm_compute. by split_and!. Qed.

(** An account without email is skipped, and so is one whose pull count is
    [null] once the comparison is reached: the latter ends the run. *)
Example incomplete_then_null_count :
  let w := sample [Dict (Body Null (Val "secret") (Val "ey.one") (Val "ACTIVE") (Val 1));
                   Dict (Body (Val "a@b.com") (Val "secret") (Val "ey.two") (Val "ACTIVE") Null);
                   Dict (account "e@f.com" "ey.three" "ACTIVE" 0)] [] in
  let run := update_cursor_auth None None None w in
  (attempt_once "tok-1" (clear_auth_info w).2).1 = Incomplete
  ∧ run.1 = false ∧ fetches run.2 = 2%nat ∧ db run.2 = [].
Proof. vm_compute. by split_and!. Qed.

(** Writing a key twice leaves one row with the second value; rows outside
    the namespace are neither read nor cleared. *)
Example upsert_twice :
  let t := [("telemetry.id", "42"); ("CursorAuth/email", "old@b.com")] in
  upsert_row (upsert_row t ("cursorAuth/email", "a@b.com")) ("cursorAuth/email", "c@d.com")
    = [("telemetry.id", "42"); ("CursorAuth/email", "old@b.com");
       ("cursorAuth/email", "c@d.com")]
  ∧ Sql.delete_auth t = [("telemetry.id", "42")].
Proof. vm_compute. by split. Qed.

(** * Further properties *)

(** ** What [get_token] returns *)

Lemma app_assoc_string (a b c : string) : (a +:+ b) +:+ c = a +:+ (b +:+ c).
Proof.
  induction a as [|x a IH]; [done|].
  change (String x ((a +:+ b) +:+ c) = String x (a +:+ (b +:+ c))). by rewrite IH.
Qed.

Lemma rev_app_app (s a : string) : String.rev_app s a = String.rev s +:+ a.
Proof.
  unfold String.rev. revert a. induction s as [|c s IH]; intros a; simpl; [done|].
  rewrite IH, (IH (String c "")), app_assoc_string. done.
Qed.

Lemma rev_app_distr (a b : string) :
  String.rev (a +:+ b) = String.rev b +:+ String.rev a.
Proof.
  induction a as [|c a IH].
  - change ("" +:+ b) with b. by rewrite append_empty.
  - change (String c a +:+ b) with (String c (a +:+ b)).
    unfold String.rev at 1 3. simpl. rewrite !rev_app_app, IH.
    by rewrite app_assoc_string.
Qed.

Lemma after_prefix_app (p s rest : string) :
  Text.after_prefix p s = Some rest → s = p +:+ rest.
Proof.
  revert s. induction p as [|a p IH]; intros s; simpl; [by intros [= ->]|].
  destruct s as [|b s]; [done|].
  destruct (Ascii.eqb_spec a b) as [->|]; [|done].
  intros H. by rewrite (IH s H).
Qed.

Lemma after_prefix_extend (p s rest z : string) :
  Text.after_prefix p s = Some rest →
  Text.after_prefix p (s +:+ z) = Some (rest +:+ z).
Proof.
  revert s. induction p as [|a p IH]; intros s; simpl; [by intros [= ->]|].
  destruct s as [|b s]; [done|]. intros H.
  change (String b s +:+ z) with (String b (s +:+ z)).
  cbn [Text.after_prefix]. destruct (Ascii.eqb a b); [|done]. by apply IH.
Qed.

Lemma drop_first_extend (pats : list string) (s z : string) :
  Text.drop_first pats (s +:+ z) = None → Text.drop_first pats s = None.
Proof.
  induction pats as [|p pats IH]; simpl; [done|].
  destruct (Text.after_prefix p s) as [r|] eqn:E.
  - by rewrite (after_prefix_extend _ _ _ z E).
  - destruct (Text.after_prefix p (s +:+ z)); [done|]. apply IH.
Qed.

Lemma drop_first_app (pats : list string) (s rest : string) :
  Text.drop_first pats s = Some rest → ∃ p, s = p +:+ rest.
Proof.
  induction pats as [|p pats IH]; simpl; [done|].
  destruct (Text.after_prefix p s) as [r|] eqn:E; [|done].
  intros [= ->]. exists p. by apply after_prefix_app.
Qed.

(** [strip_go] returns a suffix of its argument. *)
Lemma strip_go_suffix (pats : list string) (fuel : nat) (s : string) :
  ∃ x, s = x +:+ Text.strip_go pats fuel s.
Proof.
  revert s. induction fuel as [|fuel IH]; intros s; simpl; [by exists ""|].
  destruct (Text.drop_first pats s) as [r|] eqn:E; [|by exists ""].
  destruct (drop_first_app _ _ _ E) as [p ->]. destruct (IH r) as [x Hx].
  exists (p +:+ x). by rewrite app_assoc_string, <- Hx.
Qed.

(** [strip] returns a piece of its argument. *)
Lemma strip_middle (s : string) : ∃ a b, s = a +:+ (Text.strip s +:+ b).
Proof.
  unfold Text.strip, Text.rstrip.
  destruct (strip_go_suffix Text.whitespace (String.length s) s) as [a Ha].
  fold (Text.lstrip s) in *. set (u := Text.lstrip s) in *.
  destruct (strip_go_suffix (String.rev <$> Text.whitespace) (String.length u)
              (String.rev u)) as [x Hx].
  exists a, (String.rev x).
  rewrite <- rev_app_distr, <- Hx, rev_rev. exact Ha.
Qed.

Lemma strip_no_outer_space (s : string) : no_outer_space (Text.strip s) = true.
Proof.
  unfold no_outer_space.
  assert (Text.drop_first Text.whitespace (Text.strip s) = None) as ->.
  { unfold Text.strip, Text.rstrip. set (u := Text.lstrip s).
    destruct (strip_go_suffix (String.rev <$> Text.whitespace) (String.length u)
                (String.rev u)) as [x Hx].
    apply (drop_first_extend _ _ (String.rev x)).
    rewrite <- rev_app_distr, <- Hx, rev_rev. apply lstrip_done. }
  unfold Text.strip. by rewrite rstrip_done.
Qed.

Lemma no_cr_app (a b : string) : no_cr (a +:+ b) = no_cr a && no_cr b.
Proof.
  induction a as [|c a IH]; [done|].
  change (String c a +:+ b) with (String c (a +:+ b)). simpl.
  by rewrite IH, andb_assoc.
Qed.

Lemma newlines_in_no_cr (s : string) : no_cr (Text.newlines_in s) = true.
Proof.
  assert (∀ n s, (String.length s ≤ n)%nat → no_cr (Text.newlines_in s) = true) as H.
  { clear s. induction n as [|n IH]; intros [|c s] Hs; simpl in *; try done; [lia|].
    destruct (Ascii.eqb_spec c Text.CR) as [->|Hc]; simpl.
    - destruct s as [|c' s']; [done|]. simpl in Hs.
      destruct (Ascii.eqb c' Text.LF); apply IH; simpl; lia.
    - apply Ascii.eqb_neq in Hc. rewrite Hc. simpl. apply IH. lia. }
  by apply (H (String.length s)).
Qed.

Lemma newlines_in_id (s : string) : no_cr s = true → Text.newlines_in s = s.
Proof.
  induction s as [|c s IH]; simpl; [done|].
  destruct (Ascii.eqb c Text.CR); simpl; [done|]. intros H. by rewrite IH.
Qed.

Lemma newlines_round_trip (ls s : string) :
  ls = String Text.LF "" ∨ ls = String Text.CR (String Text.LF "") →
  no_cr s = true →
  Text.newlines_in (Text.newlines_out ls s) = s.
Proof.
  intros Hls. induction s as [|c s IH]; simpl; [done|].
  destruct (Ascii.eqb_spec c Text.CR) as [->|Hc]; simpl; [done|]. intros H.
  destruct (Ascii.eqb_spec c Text.LF) as [->|Hl].
  - assert (∀ x, Text.newlines_in (ls +:+ x) = String Text.LF (Text.newlines_in x)) as E.
    { by destruct Hls as [-> | ->]. }
    by rewrite E, IH.
  - simpl. apply Ascii.eqb_neq in Hc. by rewrite Hc, IH.
Qed.

Lemma strip_newlines_in_normalised (content : string) :
  no_cr (Text.strip (Text.newlines_in content)) = true
  ∧ no_outer_space (Text.strip (Text.newlines_in content)) = true.
Proof.
  split; [|apply strip_no_outer_space].
  destruct (strip_middle (Text.newlines_in content)) as (a&b&H).
  pose proof (newlines_in_no_cr content) as Hc. rewrite H in Hc.
  rewrite !no_cr_app in Hc. by destruct (no_cr a), (no_cr (Text.strip _)).
Qed.

(** X1. The token that [get_token] returns contains no carriage return and
    neither begins nor ends with a whitespace character. *)
Theorem get_token_normalised (w : world) (t : string) :
  get_token w = Some t → no_cr t = true ∧ no_outer_space t = true.
Proof.
  unfold get_token. destruct (token_file w) as [content|]; [|done].
  intros [= <-]. apply strip_newlines_in_normalised.
Qed.

Lemma get_token_normalised_witness :
  let w := World (Some (" ey.abc" +:+ Text.bytes [13; 10]%nat)) "" [] [] [] [] in
  get_token w = Some "ey.abc"
  ∧ no_cr "ey.abc" = true ∧ no_outer_space "ey.abc" = true.
Proof.
  intros w. split; [reflexivity|].
  apply (get_token_normalised w "ey.abc"). reflexivity.
Defined.

(** X2. Where the line separator is LF or CR LF, a token without carriage
    return and without white space at its ends is read back as it was
    saved, line feeds inside it included; so the token that [get_token]
    returned in any world can be saved again and read back unchanged. *)
Theorem save_get_round_trip (w : world) (t : string) :
  posix_or_windows w →
  (no_cr t = true → no_outer_space t = true →
   get_token (save_token t w) = Some t)
  ∧ (∀ w0, get_token w0 = Some t → get_token (save_token t w) = Some t).
Proof.
  intros Hw.
  assert (no_cr t = true → no_outer_space t = true →
          get_token (save_token t w) = Some t) as H.
  { intros Hc Hs. unfold get_token, save_token; simpl.
    by rewrite newlines_round_trip, strip_fixed. }
  split; [done|]. intros w0. unfold get_token at 1.
  destruct (token_file w0) as [content|]; [|done]. intros [= <-].
  by apply H; apply strip_newlines_in_normalised.
Qed.

Lemma save_get_round_trip_witness :
  let w := World None (Text.bytes [13; 10]%nat) [] [] [] [] in
  let t := "ey.a" +:+ Text.bytes [10]%nat +:+ "b" in
  get_token (save_token t w) = Some t.
Proof.
  intros w t. apply (save_get_round_trip w t); [right|..]; reflexivity.
Defined.

(** ** The requests of a run *)

Lemma resolve_token_sent (token : string) (e p r : option string) (w : world) :
  sent (resolve_token token e p r w).2
    = sent w ++ (if token_valid r then [] else [GetRefreshToken token e p]).
Proof.
  unfold resolve_token. destruct (token_valid r); [by rewrite app_nil_r|].
  pose proof (post_effect (GetRefreshToken token e p) w) as (_&_&_&_&H&_).
  destruct (post _ w) as [[| |d] w1]; simpl in *; try done.
  by destruct (token_valid _).
Qed.

Lemma attempt_once_sent_after_resolve (token : string) (w : world) (data : body) (w1 : world) :
  post (GetCursorToken token) w = (Dict data, w1) →
  sent (attempt_once token w).2
    = sent (resolve_token token (dict_get (f_email data))
              (dict_get (f_password data)) (dict_get (f_refresh_token data)) w1).2.
Proof.
  intros Hp. unfold attempt_once. rewrite Hp.
  destruct (resolve_token _ _ _ _ w1) as [[jwt|] w2]; [|done]. cbn [snd].
  destruct (status_excluded _); [done|].
  destruct (dict_get_default _ _) as [n|]; [|done].
  destruct (5 <=? n); [done|]. destruct (negb _); [done|].
  pose proof (CursorAuthManager_outside w2) as (_&_&_&I).
  destruct (CursorAuthManager w2) as [[u|] w3]; [|done]. cbn [snd] in I.
  pose proof (update_auth_outside (dict_get (f_email data)) (Some jwt) (Some jwt) w3)
    as (_&_&_&U).
  destruct (update_auth _ _ _ w3) as [ok w4]. cbn [snd] in *. congruence.
Qed.

(** X3. In a pass whose reply is a JSON object, the refresh-token endpoint
    is asked exactly when the refresh token of the reply fails the validity
    test, once, with the email and password of the reply; otherwise the
    pass makes the one request to the provisioning endpoint. *)
Theorem second_endpoint_only_when_needed
    (token : string) (w w1 : world) (data : body) :
  post (GetCursorToken token) w = (Dict data, w1) →
  sent (attempt_once token w).2
    = sent w ++ GetCursorToken token ::
        (if token_valid (dict_get (f_refresh_token data)) then []
         else [GetRefreshToken token (dict_get (f_email data))
                 (dict_get (f_password data))]).
Proof.
  intros Hp. rewrite (attempt_once_sent_after_resolve _ _ _ _ Hp), resolve_token_sent.
  pose proof (post_effect (GetCursorToken token) w) as (_&_&_&_&H&_).
  rewrite Hp in H. cbn [snd] in H. by rewrite H, <- app_assoc.
Qed.

Lemma second_endpoint_only_when_needed_witness :
  let w := sample [Dict (account "a@b.com" "opaque" "ACTIVE" 0)] [] in
  sent (attempt_once "tok-1" w).2
    = [GetCursorToken "tok-1";
       GetRefreshToken "tok-1" (Some "a@b.com") (Some "secret")].
Proof.
  intros w.
  apply (second_endpoint_only_when_needed "tok-1" w
           (post (GetCursorToken "tok-1") w).2
           (account "a@b.com" "opaque" "ACTIVE" 0)).
  reflexivity.
Defined.

Lemma attempt_once_sent (token : string) (w : world) :
  ∃ more, sent (attempt_once token w).2 = sent w ++ GetCursorToken token :: more
          ∧ Forall (λ rq, bearer rq = token) more ∧ (length more ≤ 1)%nat.
Proof.
  pose proof (post_effect (GetCursorToken token) w) as (_&_&_&_&H&_).
  destruct (post (GetCursorToken token) w) as [[| |data] w1] eqn:Hp; cbn [snd] in H.
  - exists []. unfold attempt_once. rewrite Hp. split_and!; [done|constructor|simpl; lia].
  - exists []. unfold attempt_once. rewrite Hp. split_and!; [done|constructor|simpl; lia].
  - rewrite (attempt_once_sent_after_resolve _ _ _ _ Hp), resolve_token_sent, H.
    eexists. split; [by rewrite <- app_assoc|].
    destruct (token_valid _); split; try constructor; try done; simpl; lia.
Qed.

Lemma attempts_cons (attempt : nat) (rest : list nat) (token : string) (w : world) :
  attempts (attempt :: rest) token w
    = let '(o, w') := attempt_once token w in
      match after attempt o with
      | Continue => attempts rest token w'
      | Return result => (result, w')
      end.
Proof. done. Qed.

Lemma attempts_sent (todo : list nat) (token : string) (w : world) :
  ∃ new, sent (attempts todo token w).2 = sent w ++ new
         ∧ Forall (λ rq, bearer rq = token) new
         ∧ (length new ≤ 2 * length todo)%nat.
Proof.
  revert w. induction todo as [|attempt rest IH]; intros w; cbn [attempts].
  { exists []. by rewrite app_nil_r. }
  destruct (attempt_once_sent token w) as (more&H1&H2&H3).
  destruct (attempt_once token w) as [o w1]. cbn [snd] in H1.
  destruct (after attempt o).
  - destruct (IH w1) as (new&G1&G2&G3).
    exists ((GetCursorToken token :: more) ++ new). rewrite G1, H1, <- app_assoc.
    split_and!; [done| |].
    + apply Forall_app. split; [by constructor|done].
    + rewrite length_app. simpl. lia.
  - exists (GetCursorToken token :: more). split_and!; [done|by constructor|simpl; lia].
Qed.

Lemma attempts_first_request
    (attempt : nat) (rest : list nat) (token : string) (w : world) :
  ∃ more,
    sent (attempts (attempt :: rest) token w).2
      = sent w ++ GetCursorToken token :: more
    ∧ Forall (λ rq, bearer rq = token) more
    ∧ (length more ≤ 2 * length rest + 1)%nat.
Proof.
  rewrite attempts_cons.
  destruct (attempt_once_sent token w) as (more&H1&H2&H3).
  destruct (attempt_once token w) as [o w2]. cbn [snd] in H1.
  destruct (after attempt o).
  - destruct (attempts_sent rest token w2) as (new&G1&G2&G3).
    exists (more ++ new). rewrite G1, H1, <- app_assoc. split_and!; [done| |].
    + by apply Forall_app.
    + rewrite length_app. lia.
  - exists more. cbn [snd]. split_and!; [done|done|lia].
Qed.

Lemma run_unfold (e a r : option string) (w : world) (token : string) :
  get_token w = Some token → Text.truthy token = true →
  update_cursor_auth e a r w
    = attempts (seq 0 max_retries) token (clear_auth_info w).2.
Proof.
  intros Ht Hn. unfold update_cursor_auth. rewrite Ht, Hn. cbn [negb].
  by destruct (clear_auth_info w).
Qed.

(** X4. A run that found a token asks the provisioning endpoint first, makes
    at most six requests in all, and every one of them carries the token
    that [get_token] returned. *)
Theorem run_requests (e a r : option string) (w : world) (token : string) :
  get_token w = Some token → Text.truthy token = true →
  ∃ more,
    sent (update_cursor_auth e a r w).2 = sent w ++ GetCursorToken token :: more
    ∧ Forall (λ rq, bearer rq = token) more
    ∧ (length more ≤ 5)%nat.
Proof.
  intros Ht Hn. rewrite (run_unfold e a r w token Ht Hn).
  pose proof (clear_auth_info_effect w) as (_&_&_&Hs).
  destruct (attempts_first_request 0 [1; 2]%nat token (clear_auth_info w).2)
    as (more&H1&H2&H3).
  exists more. change (seq 0 max_retries) with [0; 1; 2]%nat.
  rewrite H1, Hs. split_and!; [done|done|simpl in H3; lia].
Qed.

Lemma run_requests_witness :
  ∃ more,
    sent (update_cursor_auth None None None (sample [] [])).2
      = GetCursorToken "tok-1" :: more
    ∧ Forall (λ rq, bearer rq = "tok-1") more ∧ (length more ≤ 5)%nat.
Proof.
  apply (run_requests None None None (sample [] []) "tok-1"); reflexivity.
Defined.

(** ** [activate_card] *)

Lemma activate_card_effect (card_number : string) (answer : activation) (w : world) :
  let w' := (activate_card card_number answer w).2 in
  token_file w'
    = match answer with
      | ActivationResult (Val t) => Some (Text.newlines_out (linesep w) t)
      | _ => None
      end
  ∧ sent w' = sent w ∧ net w' = net w
  ∧ db w' = db (clear_auth_info w).2.
Proof.
  unfold activate_card.
  pose proof (clear_auth_info_effect w) as (Hc&Hl&Hn&Hs).
  destruct (clear_auth_info w) as [ok w1]. cbn [snd] in *.
  destruct answer as [|[| |t]]; cbn [snd]; try done.
  unfold save_token. simpl. by rewrite Hl.
Qed.

(** X5. After [activate_card] the token file holds the access token of the
    reply and nothing else: when the request fails or the reply has no
    access token, [get_token] finds nothing, whatever token was stored
    before the call.  The store is left as [clear_auth_info] leaves it. *)
Theorem activate_card_token (card_number : string) (answer : activation) (w : world) :
  let w' := (activate_card card_number answer w).2 in
  get_token w'
    = match answer with
      | ActivationResult (Val t) =>
          Some (Text.strip (Text.newlines_in (Text.newlines_out (linesep w) t)))
      | _ => None
      end
  ∧ db w' = db (clear_auth_info w).2.
Proof.
  intros w'. destruct (activate_card_effect card_number answer w) as (H1&_&_&H3).
  split; [|done]. unfold get_token. fold w' in H1. rewrite H1.
  by destruct answer as [|[| |t]].
Qed.

(** X6. A sync that follows an activation sends the activated token,
    stripped, as its bearer token, and leaves no token behind: the next
    sync needs another activation. *)
Theorem activate_then_sync
    (card_number t : string) (e a r : option string) (w : world) :
  let w1 := (activate_card card_number (ActivationResult (Val t)) w).2 in
  let token := Text.strip (Text.newlines_in (Text.newlines_out (linesep w) t)) in
  Text.truthy token = true →
  (∃ more,
     sent (update_cursor_auth e a r w1).2 = sent w ++ GetCursorToken token :: more
     ∧ Forall (λ rq, bearer rq = token) more)
  ∧ get_token (update_cursor_auth e a r w1).2 = None.
Proof.
  intros w1 token Hn.
  destruct (activate_card_effect card_number (ActivationResult (Val t)) w)
    as (Hf&Hs&_). fold w1 in Hf, Hs.
  assert (get_token w1 = Some token) as Hg by (unfold get_token; by rewrite Hf).
  clearbody w1 token. rewrite (run_unfold e a r w1 token Hg Hn).
  pose proof (clear_auth_info_effect w1) as (Hc&_&_&Hs1).
  change (seq 0 max_retries) with [0; 1; 2]%nat. split.
  - destruct (attempts_first_request 0 [1; 2]%nat token (clear_auth_info w1).2)
      as (more&H1&H2&_).
    exists more. by rewrite H1, Hs1, Hs.
  - destruct (attempts_effect [0; 1; 2]%nat token (clear_auth_info w1).2) as (Hk&_).
    unfold get_token. by rewrite Hk, Hc.
Qed.

Lemma activate_then_sync_witness :
  let w1 := (activate_card "0123456789abcdef" (ActivationResult (Val " tok-9 "))
               (sample [] [])).2 in
  (∃ more,
     sent (update_cursor_auth None None None w1).2 = GetCursorToken "tok-9" :: more
     ∧ Forall (λ rq, bearer rq = "tok-9") more)
  ∧ get_token (update_cursor_auth None None None w1).2 = None.
Proof.
  apply (activate_then_sync "0123456789abcdef" " tok-9 " None None None (sample [] [])).
  reflexivity.
Defined.

(** ** What the program keeps in the store *)

Lemma update_auth_success_db (e a r : option string) (w : world) :
  (update_auth e a r w).1 = true →
  db (update_auth e a r w).2 = foldl upsert_row (db w) (updates_of e r).
Proof.
  intros Hok. destruct (update_auth_run e a r w) as [Hdb Hres].
  rewrite Hok in Hres. rewrite Hdb.
  destruct (next_fault w).1 as [k|]; [|done]. cbn [survives] in *.
  symmetry in Hres. apply Nat.leb_le in Hres.
  by rewrite (proj2 (Nat.leb_le _ _)) by lia.
Qed.

Section store_invariant.

Variable P : table → Prop.
Hypothesis delete_keeps : ∀ t, P t → P (Sql.delete_auth t).
Hypothesis upserts_keep : ∀ t e r, P t → P (foldl upsert_row t (updates_of e r)).

Lemma update_auth_inv (e a r : option string) (w : world) :
  P (db w) → P (db (update_auth e a r w).2).
Proof.
  intros H. destruct (update_auth_run e a r w) as [-> _].
  destruct (survives _ _); [by apply upserts_keep|done].
Qed.

Lemma clear_auth_info_inv (w : world) : P (db w) → P (db (clear_auth_info w).2).
Proof.
  intros H. rewrite clear_auth_info_db.
  destruct (clear_auth_info w).1; [by apply delete_keeps|done].
Qed.

Lemma attempt_once_inv (token : string) (w : world) :
  P (db w) → P (db (attempt_once token w).2).
Proof.
  intros H. unfold attempt_once.
  pose proof (post_effect (GetCursorToken token) w) as (_&_&Hp&_).
  destruct (post _ w) as [[| |data] w1]; cbn [snd] in *; try by rewrite Hp.
  pose proof (resolve_token_effect token (dict_get (f_email data))
    (dict_get (f_password data)) (dict_get (f_refresh_token data)) w1) as (_&Hr&_).
  destruct (resolve_token _ _ _ _ w1) as [[jwt|] w2]; cbn [snd] in *;
    [|by rewrite Hr, Hp].
  assert (P (db w2)) as H2 by (by rewrite Hr, Hp).
  destruct (status_excluded _); [done|].
  destruct (dict_get_default _ _) as [n|]; [|done].
  destruct (5 <=? n); [done|]. destruct (negb _); [done|].
  pose proof (CursorAuthManager_db w2) as Hm.
  destruct (CursorAuthManager w2) as [[u|] w3]; cbn [snd] in *; [|by rewrite Hm].
  pose proof (update_auth_inv (dict_get (f_email data)) (Some jwt) (Some jwt) w3) as Hu.
  destruct (update_auth _ _ _ w3) as [ok w4]. cbn [snd] in *.
  apply Hu. by rewrite Hm.
Qed.

Lemma attempts_inv (todo : list nat) (token : string) (w : world) :
  P (db w) → P (db (attempts todo token w).2).
Proof.
  revert w. induction todo as [|attempt rest IH]; intros w H; [done|].
  rewrite attempts_cons. pose proof (attempt_once_inv token w H) as H1.
  destruct (attempt_once token w) as [o w1]. cbn [snd] in H1.
  destruct (after attempt o); [by apply IH|done].
Qed.

Lemma update_cursor_auth_inv (e a r : option string) (w : world) :
  P (db w) → P (db (update_cursor_auth e a r w).2).
Proof.
  intros H. unfold update_cursor_auth.
  destruct (get_token w) as [token|]; [|done]. destruct (negb _); [done|].
  pose proof (clear_auth_info_inv w H) as H1.
  destruct (clear_auth_info w) as [ok w1]. by apply attempts_inv.
Qed.

Lemma activate_card_inv (card_number : string) (answer : activation) (w : world) :
  P (db w) → P (db (activate_card card_number answer w).2).
Proof.
  intros H. destruct (activate_card_effect card_number answer w) as (_&_&_&->).
  by apply clear_auth_info_inv.
Qed.

End store_invariant.

Lemma keys_insert (k v : string) (t : table) : keys (Sql.insert k v t) = keys t ++ [k].
Proof. unfold keys, Sql.insert. by rewrite fmap_app. Qed.

Lemma keys_update (k v : string) (t : table) : keys (Sql.update k v t) = keys t.
Proof.
  unfold keys. induction t as [|[k0 v0] t IH]; simpl; [done|].
  destruct (String.eqb k0 k); simpl; by f_equal.
Qed.

Lemma count_zero_keys (k : string) (t : table) : Sql.count k t = O ↔ k ∉ keys t.
Proof.
  unfold keys. induction t as [|[k0 v0] t IH]; simpl.
  - split; [intros _; apply not_elem_of_nil|done].
  - rewrite not_elem_of_cons. destruct (String.eqb_spec k0 k) as [->|Hk].
    + split; [done|]. by intros [? _].
    + rewrite IH. split; [by intros ?; split|by intros [_ ?]].
Qed.

Lemma keys_delete_sublist (t : table) : keys (Sql.delete_auth t) `sublist_of` keys t.
Proof.
  unfold keys. induction t as [|[k v] t IH]; simpl; [done|].
  destruct (Sql.like_cursorAuth k); simpl;
    [by apply sublist_cons|by apply sublist_skip].
Qed.

Lemma NoDup_upsert_row (t : table) (kv : row) :
  NoDup (keys t) → NoDup (keys (upsert_row t kv)).
Proof.
  intros H. unfold upsert_row. case_decide as Hc.
  - rewrite keys_insert. apply NoDup_app. split_and!; [done| |apply NoDup_singleton].
    intros x Hx ->%list_elem_of_singleton. by apply count_zero_keys in Hc.
  - by rewrite keys_update.
Qed.

Lemma NoDup_upserts (l : list row) (t : table) :
  NoDup (keys t) → NoDup (keys (foldl upsert_row t l)).
Proof.
  revert t. induction l as [|kv l IH]; intros t H; simpl; [done|].
  by apply IH, NoDup_upsert_row.
Qed.

(** X7. The keys of the table stay unique: when no key of the store occurs
    twice before [update_auth], [clear_auth_info], [activate_card] or a
    whole run of [update_cursor_auth], none does afterwards, whatever the
    store and the server do in between. *)
Theorem keys_stay_unique (w : world) :
  NoDup (keys (db w)) →
  (∀ e a r, NoDup (keys (db (update_auth e a r w).2)))
  ∧ NoDup (keys (db (clear_auth_info w).2))
  ∧ (∀ card_number answer, NoDup (keys (db (activate_card card_number answer w).2)))
  ∧ (∀ e a r, NoDup (keys (db (update_cursor_auth e a r w).2))).
Proof.
  intros H.
  assert (∀ t, NoDup (keys t) → NoDup (keys (Sql.delete_auth t))) as Hd.
  { intros t Ht. apply (sublist_NoDup _ _ Ht), keys_delete_sublist. }
  assert (∀ t e r, NoDup (keys t) →
            NoDup (keys (foldl upsert_row t (updates_of e r)))) as Hu.
  { intros t e r. apply NoDup_upserts. }
  split_and!.
  - intros e a r. by apply (update_auth_inv (λ t, NoDup (keys t))).
  - by apply (clear_auth_info_inv (λ t, NoDup (keys t))).
  - intros c answer. by apply (activate_card_inv (λ t, NoDup (keys t))).
  - intros e a r. by apply (update_cursor_auth_inv (λ t, NoDup (keys t))).
Qed.

Lemma keys_stay_unique_witness :
  let w := World (Some "tok-1") "" [("telemetry.id", "42"); ("cursorAuth/email", "old")]
             [] [Dict (account "a@b.com" "ey.xyz" "ACTIVE" 0)] [] in
  NoDup (keys (db (update_cursor_auth None None None w).2)).
Proof.
  intros w. apply (keys_stay_unique w). vm_compute.
  apply NoDup_cons. split; [|apply NoDup_singleton].
  by intros ?%list_elem_of_singleton.
Defined.

Lemma delete_auth_app (t1 t2 : table) :
  Sql.delete_auth (t1 ++ t2) = Sql.delete_auth t1 ++ Sql.delete_auth t2.
Proof.
  induction t1 as [|[k v] t1 IH]; simpl; [done|].
  destruct (Sql.like_cursorAuth k); simpl; by rewrite IH.
Qed.

Lemma delete_auth_idemp (t : table) :
  Sql.delete_auth (Sql.delete_auth t) = Sql.delete_auth t.
Proof.
  induction t as [|[k v] t IH]; simpl; [done|].
  destruct (Sql.like_cursorAuth k) eqn:E; simpl; [done|]. by rewrite E, IH.
Qed.

Lemma delete_auth_update (k v : string) (t : table) :
  Sql.like_cursorAuth k = true →
  Sql.delete_auth (Sql.update k v t) = Sql.delete_auth t.
Proof.
  intros Hk. induction t as [|[k0 v0] t IH]; simpl; [done|].
  destruct (String.eqb_spec k0 k) as [->|Hne]; simpl.
  - by rewrite Hk.
  - destruct (Sql.like_cursorAuth k0); by rewrite IH.
Qed.

Lemma delete_auth_upsert_row (t : table) (kv : row) :
  Sql.like_cursorAuth kv.1 = true →
  Sql.delete_auth (upsert_row t kv) = Sql.delete_auth t.
Proof.
  destruct kv as [k v]. simpl. intros Hk. unfold upsert_row. simpl. case_decide.
  - unfold Sql.insert. rewrite delete_auth_app. simpl. by rewrite Hk, app_nil_r.
  - by apply delete_auth_update.
Qed.

Lemma delete_auth_upserts (l : list row) (t : table) :
  Forall (λ kv, Sql.like_cursorAuth kv.1 = true) l →
  Sql.delete_auth (foldl upsert_row t l) = Sql.delete_auth t.
Proof.
  intros Hl. revert t. induction Hl as [|kv l Hk _ IH]; intros t; simpl; [done|].
  by rewrite IH, delete_auth_upsert_row.
Qed.

Lemma updates_in_namespace (e r : option string) :
  Forall (λ kv, Sql.like_cursorAuth kv.1 = true) (updates_of e r).
Proof.
  unfold updates_of.
  destruct e as [email|], (token_valid r), r as [jwt|];
    repeat (apply Forall_cons; split; [reflexivity|]); apply Forall_nil_2.
Qed.

(** X8. Rows whose key is not in the [cursorAuth/] namespace are never
    touched: dropping the rows of the namespace gives the same table, row by
    row, after [update_auth], [clear_auth_info], [activate_card] or a whole
    run of [update_cursor_auth] as before. *)
Theorem rows_outside_namespace_kept (w : world) :
  (∀ e a r, Sql.delete_auth (db (update_auth e a r w).2) = Sql.delete_auth (db w))
  ∧ Sql.delete_auth (db (clear_auth_info w).2) = Sql.delete_auth (db w)
  ∧ (∀ card_number answer,
       Sql.delete_auth (db (activate_card card_number answer w).2)
         = Sql.delete_auth (db w))
  ∧ (∀ e a r,
       Sql.delete_auth (db (update_cursor_auth e a r w).2) = Sql.delete_auth (db w)).
Proof.
  set (P := λ t, Sql.delete_auth t = Sql.delete_auth (db w)).
  assert (∀ t, P t → P (Sql.delete_auth t)) as Hd.
  { intros t Ht. unfold P in *. by rewrite delete_auth_idemp. }
  assert (∀ t e r, P t → P (foldl upsert_row t (updates_of e r))) as Hu.
  { intros t e r Ht. unfold P in *.
    by rewrite delete_auth_upserts by apply updates_in_namespace. }
  split_and!.
  - intros e a r. by apply (update_auth_inv P).
  - by apply (clear_auth_info_inv P).
  - intros c answer. by apply (activate_card_inv P).
  - intros e a r. by apply (update_cursor_auth_inv P).
Qed.

Lemma value_of_delete (key : string) (t : table) :
  value_of key (Sql.delete_auth t)
    = if Sql.like_cursorAuth key then None else value_of key t.
Proof.
  induction t as [|[k v] t IH]; simpl; [by destruct (Sql.like_cursorAuth key)|].
  destruct (Sql.like_cursorAuth k) eqn:Ek; simpl.
  - rewrite IH. destruct (String.eqb_spec k key) as [->|]; [by rewrite Ek|done].
  - rewrite IH. destruct (String.eqb_spec k key) as [->|]; [by rewrite Ek|done].
Qed.

(** X9. [clear_auth_info] removes a key exactly when the key starts with
    [cursorAuth/] in any mix of upper and lower case, as [LIKE] compares,
    and only when it reports success: when it reports failure the store is
    as it was. *)
Theorem clear_auth_info_values (w : world) (key : string) :
  value_of key (db (clear_auth_info w).2)
    = if (clear_auth_info w).1 && Sql.like_cursorAuth key then None
      else value_of key (db w).
Proof.
  rewrite clear_auth_info_db. destruct (clear_auth_info w).1; [|done].
  apply value_of_delete.
Qed.

Lemma written_none (key : string) (l : list row) :
  key ∉ keys l → written key l = None.
Proof.
  unfold keys. induction l as [|[k v] l IH]; simpl; [done|].
  rewrite not_elem_of_cons. intros [Hk Hl]. rewrite (IH Hl).
  by destruct (String.eqb_spec k key).
Qed.

(** X10. [update_auth] changes the value of no key besides those of its
    list of updates, whether it succeeds or fails: every other key, in the
    namespace or not, keeps its value. *)
Theorem update_auth_other_keys (e a r : option string) (w : world) (key : string) :
  key ∉ keys (updates_of e r) →
  value_of key (db (update_auth e a r w).2) = value_of key (db w).
Proof.
  intros Hk. destruct (update_auth_run e a r w) as [-> _].
  destruct (survives _ _); [|done].
  by rewrite get_after_upserts, written_none.
Qed.

Lemma update_auth_other_keys_witness :
  let w := World None "" [("cursorAuth/onboardingDate", "2024")] [] [] [] in
  value_of "cursorAuth/onboardingDate"
    (db (update_auth (Some "a@b.com") None (Some "ey.xyz") w).2) = Some "2024".
Proof.
  intros w.
  apply (update_auth_other_keys (Some "a@b.com") None (Some "ey.xyz") w
           "cursorAuth/onboardingDate").
  apply (bool_decide_unpack _). vm_compute. exact I.
Defined.

(** ** Committing twice, and a commit whose read-back fails *)

Lemma count_app (k : string) (t1 t2 : table) :
  Sql.count k (t1 ++ t2) = (Sql.count k t1 + Sql.count k t2)%nat.
Proof.
  induction t1 as [|[k0 v0] t1 IH]; simpl; [done|].
  destruct (String.eqb k0 k); simpl; by rewrite IH.
Qed.

Lemma update_app (k v : string) (t1 t2 : table) :
  Sql.update k v (t1 ++ t2) = Sql.update k v t1 ++ Sql.update k v t2.
Proof. induction t1 as [|[k0 v0] t1 IH]; simpl; [done|]. by rewrite IH. Qed.

Lemma update_absent (k v : string) (t : table) :
  Sql.count k t = O → Sql.update k v t = t.
Proof.
  induction t as [|[k0 v0] t IH]; simpl; [done|].
  destruct (String.eqb k0 k); [done|]. intros H. by rewrite IH.
Qed.

Lemma count_update (k k' v' : string) (t : table) :
  Sql.count k (Sql.update k' v' t) = Sql.count k t.
Proof.
  induction t as [|[k0 v0] t IH]; simpl; [done|].
  destruct (String.eqb k0 k'); simpl; by rewrite IH.
Qed.

Lemma update_idemp (k v : string) (t : table) :
  Sql.update k v (Sql.update k v t) = Sql.update k v t.
Proof.
  induction t as [|[k0 v0] t IH]; simpl; [done|].
  destruct (String.eqb k0 k) eqn:E; simpl; by rewrite E, IH.
Qed.

Lemma update_comm (k v k' v' : string) (t : table) :
  k ≠ k' →
  Sql.update k v (Sql.update k' v' t) = Sql.update k' v' (Sql.update k v t).
Proof.
  intros Hne. induction t as [|[k0 v0] t IH]; simpl; [done|]. rewrite IH.
  destruct (String.eqb k0 k') eqn:E1, (String.eqb k0 k) eqn:E2;
    simpl; rewrite ?E1, ?E2; try done.
  apply String.eqb_eq in E1, E2. congruence.
Qed.

Lemma settled_upsert (k v : string) (t : table) : settled k v (upsert_row t (k, v)).
Proof.
  unfold settled, upsert_row. simpl. case_decide as Hc.
  - unfold Sql.insert. rewrite count_app, update_app, (update_absent _ _ _ Hc).
    simpl. rewrite String.eqb_refl. split; [lia|done].
  - by rewrite count_update, update_idemp.
Qed.

Lemma settled_other (k v k' v' : string) (t : table) :
  k ≠ k' → settled k v t → settled k v (upsert_row t (k', v')).
Proof.
  intros Hne [Hc Hu]. unfold settled, upsert_row. simpl. case_decide as Hc'.
  - unfold Sql.insert. rewrite count_app, update_app, Hu. simpl.
    rewrite (proj2 (String.eqb_neq k' k)) by done. split; [lia|done].
  - by rewrite count_update, update_comm, Hu.
Qed.

Lemma settled_fixed (k v : string) (t : table) :
  settled k v t → upsert_row t (k, v) = t.
Proof. intros [Hc Hu]. unfold upsert_row. simpl. by case_decide. Qed.

Lemma settled_upserts (k v : string) (l : list row) (t : table) :
  k ∉ keys l → settled k v t → settled k v (foldl upsert_row t l).
Proof.
  unfold keys. revert t. induction l as [|[k' v'] l IH]; intros t; simpl; [done|].
  rewrite not_elem_of_cons. intros [Hk Hl] H. by apply IH, settled_other.
Qed.

Lemma upserts_settle (l : list row) (t : table) :
  NoDup (keys l) → Forall (λ kv, settled kv.1 kv.2 (foldl upsert_row t l)) l.
Proof.
  unfold keys. revert t. induction l as [|[k v] l IH]; intros t; simpl; [constructor|].
  intros [Hk Hl]%NoDup_cons. constructor; [|by apply IH].
  simpl. apply settled_upserts; [done|apply settled_upsert].
Qed.

Lemma upserts_fixed (l : list row) (t : table) :
  Forall (λ kv, settled kv.1 kv.2 t) l → foldl upsert_row t l = t.
Proof.
  induction 1 as [|[k v] l Hk _ IH]; simpl in *; [done|].
  by rewrite (settled_fixed k v t Hk).
Qed.

Lemma updates_keys_unique (e r : option string) : NoDup (keys (updates_of e r)).
Proof.
  unfold updates_of.
  destruct e as [email|], (token_valid r), r as [jwt|];
    apply (bool_decide_unpack _); vm_compute; exact I.
Qed.

(** X11. [update_auth] is idempotent: after a successful call, a second call
    with the same email and refresh token leaves the store exactly as the
    first call left it, rows and order, whether the second call succeeds or
    fails. *)
Theorem update_auth_idempotent (e a a' r : option string) (w : world) :
  (update_auth e a r w).1 = true →
  db (update_auth e a' r (update_auth e a r w).2).2 = db (update_auth e a r w).2.
Proof.
  intros Hok. pose proof (update_auth_success_db e a r w Hok) as H1.
  destruct (update_auth_run e a' r (update_auth e a r w).2) as [-> _].
  destruct (survives _ _); [|done]. rewrite H1.
  apply upserts_fixed, upserts_settle, updates_keys_unique.
Qed.

Lemma update_auth_idempotent_witness :
  let w := World None "" [("cursorAuth/email", "old@b.com")] [] [] [] in
  db (update_auth (Some "a@b.com") None (Some "ey.xyz")
        (update_auth (Some "a@b.com") None (Some "ey.xyz") w).2).2
    = db (update_auth (Some "a@b.com") None (Some "ey.xyz") w).2.
Proof.
  intros w. apply (update_auth_idempotent (Some "a@b.com") None None (Some "ey.xyz") w).
  reflexivity.
Defined.

(** X12. When the engine raises at the [SELECT] that reads the rows back,
    after [commit()], [update_auth] reports failure although every write is
    in the store: the store is the one that the same call leaves when
    nothing raises and it reports success. *)
Theorem read_back_failure (e a r : option string) (w : world) (rest : list fault) :
  db_faults w = Some (statements_to_commit (updates_of e r)) :: rest →
  let clean := update_auth e a r (set_db_faults (None :: rest) w) in
  (update_auth e a r w).1 = false
  ∧ clean.1 = true
  ∧ db (update_auth e a r w).2 = db clean.2.
Proof.
  intros Hf clean.
  destruct (update_auth_run e a r w) as [H1 H2].
  destruct (update_auth_run e a r (set_db_faults (None :: rest) w)) as [G1 G2].
  fold clean in G1, G2. unfold next_fault in *. rewrite Hf in *.
  cbn [db_faults set_db_faults fst survives db] in *.
  rewrite H1, H2, G1, G2, Nat.leb_refl.
  by rewrite (proj2 (Nat.leb_gt _ _)) by lia.
Qed.

Lemma read_back_failure_witness :
  let w := sample [] [Some 25%nat] in
  (update_auth (Some "a@b.com") None (Some "ey.xyz") w).1 = false
  ∧ value_of "cursorAuth/accessToken"
      (db (update_auth (Some "a@b.com") None (Some "ey.xyz") w).2) = Some "ey.xyz".
Proof.
  intros w.
  destruct (read_back_failure (Some "a@b.com") None (Some "ey.xyz") w [] eq_refl)
    as (H1&_&H3).
  split; [exact H1|]. rewrite H3. reflexivity.
Defined.

(** ** Reading what was committed *)

Lemma get_auth_info_run (w : world) :
  (get_auth_info w).1
    = if survives (next_fault w).1 2
      then if_missing "refreshToken" None
             (if_missing "accessToken" None
                (if_missing "email" (Some unknown_email)
                   (foldl (λ res kv, <[Text.last_segment kv.1 := Some kv.2]> res) ∅
                      (Sql.select_auth (db w)))))
      else default_auth_info.
Proof.
  unfold get_auth_info, with_connection.
  destruct (next_fault w) as [[[|[|n]]|] rest]; done.
Qed.

Lemma lookup_rows (rows : table) (acc : gmap string (option string)) (f : string) :
  foldl (λ res kv, <[Text.last_segment kv.1 := Some kv.2]> res) acc rows !! f
    = match last_value f rows with
      | Some v => Some (Some v)
      | None => acc !! f
      end.
Proof.
  revert acc. induction rows as [|[k v] rows IH]; intros acc; simpl; [done|].
  rewrite IH. destruct (last_value f rows); [done|].
  destruct (String.eqb_spec (Text.last_segment k) f) as [->|Hne].
  - by rewrite lookup_insert_eq.
  - by rewrite lookup_insert_ne.
Qed.

Lemma default_auth_info_field (f : string) : default_auth_info !! f = default_field f.
Proof.
  unfold default_auth_info, default_field.
  destruct (String.eqb_spec f "email") as [->|H1]; [done|].
  destruct (String.eqb_spec f "accessToken") as [->|H2]; [done|].
  destruct (String.eqb_spec f "refreshToken") as [->|H3]; [done|].
  by rewrite !lookup_insert_ne.
Qed.

(** What [get_auth_info] reports under each field name. *)
Lemma get_auth_info_field (w : world) (f : string) :
  (get_auth_info w).1 !! f
    = if survives (next_fault w).1 2
      then match last_value f (Sql.select_auth (db w)) with
           | Some v => Some (Some v)
           | None => default_field f
           end
      else default_field f.
Proof.
  rewrite get_auth_info_run. destruct (survives _ _); [|apply default_auth_info_field].
  rewrite !lookup_if_missing, !lookup_rows, !lookup_empty. unfold default_field.
  destruct (String.eqb_spec f "email") as [->|H1].
  { repeat case_decide; try done. by destruct (last_value _ _). }
  destruct (String.eqb_spec f "accessToken") as [->|H2].
  { repeat case_decide; try done. by destruct (last_value _ _). }
  destruct (String.eqb_spec f "refreshToken") as [->|H3].
  { repeat case_decide; try done. by destruct (last_value _ _). }
  repeat case_decide; try done; by subst.
Qed.

Lemma last_value_app (f : string) (rows1 rows2 : table) :
  last_value f (rows1 ++ rows2)
    = match last_value f rows2 with
      | Some v => Some v
      | None => last_value f rows1
      end.
Proof.
  induction rows1 as [|[k v] rows1 IH]; simpl; [by destruct (last_value f rows2)|].
  rewrite IH. by destruct (last_value f rows2).
Qed.

Lemma last_value_none (f : string) (rows : table) :
  f ∉ (λ kv : row, Text.last_segment kv.1) <$> rows → last_value f rows = None.
Proof.
  induction rows as [|[k v] rows IH]; simpl; [done|].
  rewrite not_elem_of_cons. intros [Hk Hl]. rewrite (IH Hl).
  by destruct (String.eqb_spec (Text.last_segment k) f).
Qed.

(** X13. [get_auth_info] files every row of the namespace under the last
    segment of its key, whatever stands before it and in whatever letter
    case the prefix is written; when several rows share that segment, the
    one that comes last in the table is the one reported. *)
Theorem get_auth_info_last_row_wins
    (w : world) (before after : table) (k v : string) :
  survives (next_fault w).1 2 = true →
  Sql.select_auth (db w) = before ++ (k, v) :: after →
  Text.last_segment k ∉ (λ kv : row, Text.last_segment kv.1) <$> after →
  (get_auth_info w).1 !! Text.last_segment k = Some (Some v).
Proof.
  intros Hs Hrows Hafter. rewrite get_auth_info_field, Hs, Hrows.
  rewrite last_value_app. simpl. rewrite (last_value_none _ _ Hafter).
  by rewrite String.eqb_refl.
Qed.

Lemma get_auth_info_last_row_wins_witness :
  let w := World None "" [("cursorAuth/email", "a@b.com"); ("telemetry.id", "42");
                          ("CURSORAUTH/backup/email", "old@b.com")] [] [] [] in
  (get_auth_info w).1 !! "email" = Some (Some "old@b.com").
Proof.
  intros w.
  apply (get_auth_info_last_row_wins w [("cursorAuth/email", "a@b.com")] []
           "CURSORAUTH/backup/email" "old@b.com").
  - reflexivity.
  - reflexivity.
  - vm_compute. apply not_elem_of_nil.
Defined.

Lemma select_auth_app (t1 t2 : table) :
  Sql.select_auth (t1 ++ t2) = Sql.select_auth t1 ++ Sql.select_auth t2.
Proof.
  induction t1 as [|[k v] t1 IH]; simpl; [done|].
  destruct (Sql.like_cursorAuth k); simpl; by rewrite IH.
Qed.

Lemma select_auth_update (k v : string) (t : table) :
  Sql.select_auth (Sql.update k v t) = Sql.update k v (Sql.select_auth t).
Proof.
  induction t as [|[k0 v0] t IH]; simpl; [done|].
  destruct (String.eqb k0 k) eqn:E, (Sql.like_cursorAuth k0) eqn:L;
    simpl; rewrite ?E, ?L, IH; done.
Qed.

Lemma count_select_auth (k : string) (t : table) :
  Sql.like_cursorAuth k = true → Sql.count k (Sql.select_auth t) = Sql.count k t.
Proof.
  intros Hk. induction t as [|[k0 v0] t IH]; simpl; [done|].
  destruct (String.eqb_spec k0 k) as [->|Hne].
  - rewrite Hk. simpl. by rewrite String.eqb_refl, IH.
  - destruct (Sql.like_cursorAuth k0); simpl; [|done].
    by rewrite (proj2 (String.eqb_neq k0 k)).
Qed.

Lemma select_auth_upsert_row (t : table) (kv : row) :
  Sql.like_cursorAuth kv.1 = true →
  Sql.select_auth (upsert_row t kv) = upsert_row (Sql.select_auth t) kv.
Proof.
  destruct kv as [k v]. simpl. intros Hk. unfold upsert_row. simpl.
  rewrite (count_select_auth k t Hk). case_decide.
  - unfold Sql.insert. rewrite select_auth_app. simpl. by rewrite Hk.
  - apply select_auth_update.
Qed.

Lemma select_auth_upserts (l : list row) (t : table) :
  Forall (λ kv, Sql.like_cursorAuth kv.1 = true) l →
  Sql.select_auth (foldl upsert_row t l) = foldl upsert_row (Sql.select_auth t) l.
Proof.
  intros Hl. revert t. induction Hl as [|kv l Hk _ IH]; intros t; simpl; [done|].
  by rewrite IH, select_auth_upsert_row.
Qed.

(** X14. Committing and reading back: when the namespace is empty, as a
    successful [clear_auth_info] leaves it, and [update_auth] succeeds with
    an email and a valid token, [get_auth_info] returns exactly the eleven
    fields of the commit, the four markers, the email twice and the token
    five times; when the read itself fails, it returns the defaults. *)
Theorem commit_then_read (email jwt : string) (a : option string) (w : world) :
  Sql.select_auth (db w) = [] →
  token_ok jwt = true →
  (update_auth (Some email) a (Some jwt) w).1 = true →
  let w' := (update_auth (Some email) a (Some jwt) w).2 in
  (get_auth_info w').1
    = if survives (next_fault w').1 2 then committed_auth_info email jwt
      else default_auth_info.
Proof.
  intros Hempty Hjwt Hok w'. rewrite get_auth_info_run.
  destruct (survives _ _); [|done]. unfold w'.
  rewrite (update_auth_success_db _ _ _ _ Hok).
  rewrite select_auth_upserts by apply updates_in_namespace. rewrite Hempty.
  unfold updates_of. cbn [token_valid]. rewrite Hjwt. reflexivity.
Qed.

Lemma commit_then_read_witness :
  let w := (clear_auth_info
              (World None "" [("cursorAuth/email", "old@b.com"); ("telemetry.id", "42")]
                 [] [] [])).2 in
  (get_auth_info (update_auth (Some "a@b.com") None (Some "ey.xyz") w).2).1
    = committed_auth_info "a@b.com" "ey.xyz".
Proof.
  intros w.
  apply (commit_then_read "a@b.com" "ey.xyz" None w); reflexivity.
Defined.

(** ** The status label *)

(** X15. [update_auth_status] always shows an email line, never the text for
    missing information: the email shown is that of the last row of the
    namespace whose key ends in [/email], and the sentinel when there is no
    such row or the store cannot be read. *)
Theorem update_auth_status_text (w : world) :
  (update_auth_status w).1
    = "当前认证信息：" +:+ String Text.LF "Email: "
        +:+ (if survives (next_fault w).1 2
             then default unknown_email
                    (last_value "email" (Sql.select_auth (db w)))
             else unknown_email).
Proof.
  unfold update_auth_status.
  pose proof (get_auth_info_field w "email") as H.
  destruct (get_auth_info w) as [info w']. cbn [fst] in *.
  rewrite bool_decide_true.
  - cbn [fst]. rewrite H. do 2 f_equal.
    destruct (survives _ _); [|done]. by destruct (last_value _ _).
  - intros ->. rewrite lookup_empty in H.
    destruct (survives _ _); [|done]. by destruct (last_value _ _).
Qed.

(** ** What a run that succeeds has done *)

Lemma resolve_token_net (token : string) (e p r : option string) (w : world) :
  net (resolve_token token e p r w).2 `suffix_of` net w.
Proof.
  unfold resolve_token. destruct (token_valid r); [done|].
  pose proof (post_effect (GetRefreshToken token e p) w) as (_&_&_&_&_&H).
  assert (tail (net w) `suffix_of` net w) as Ht.
  { destruct (net w) as [|x l]; [done|]. by apply suffix_cons_r. }
  destruct (post _ w) as [[| |d] w1]; cbn [snd] in *; try by rewrite H.
  destruct (token_valid _); cbn [snd]; by rewrite H.
Qed.

Lemma attempt_once_net (token : string) (w : world) :
  net (attempt_once token w).2 `suffix_of` net w.
Proof.
  unfold attempt_once.
  pose proof (post_effect (GetCursorToken token) w) as (_&_&_&_&_&Hp).
  assert (tail (net w) `suffix_of` net w) as Ht.
  { destruct (net w) as [|x l]; [done|]. by apply suffix_cons_r. }
  destruct (post _ w) as [[| |data] w1]; cbn [snd] in *; try by rewrite Hp.
  pose proof (resolve_token_net token (dict_get (f_email data))
    (dict_get (f_password data)) (dict_get (f_refresh_token data)) w1) as Hr.
  rewrite Hp in Hr. assert (∀ l, l `suffix_of` tail (net w) → l `suffix_of` net w) as Hs.
  { intros l Hl. by etrans. }
  destruct (resolve_token _ _ _ _ w1) as [[jwt|] w2]; cbn [snd] in *; [|by apply Hs].
  destruct (status_excluded _); [by apply Hs|].
  destruct (dict_get_default _ _) as [n|]; [|by apply Hs].
  destruct (5 <=? n); [by apply Hs|]. destruct (negb _); [by apply Hs|].
  pose proof (CursorAuthManager_outside w2) as (_&_&I&_).
  destruct (CursorAuthManager w2) as [[u|] w3]; cbn [snd] in *;
    [|rewrite I; by apply Hs].
  pose proof (update_auth_outside (dict_get (f_email data)) (Some jwt) (Some jwt) w3)
    as (_&_&U&_).
  destruct (update_auth _ _ _ w3) as [ok w4]. cbn [snd] in *.
  rewrite U, I. by apply Hs.
Qed.

Lemma attempts_committed (todo : list nat) (token : string) (w w' : world) :
  attempts todo token w = (true, w') →
  ∃ w0, attempt_once token w0 = (Committed, w') ∧ net w0 `suffix_of` net w.
Proof.
  revert w. induction todo as [|attempt rest IH]; intros w; [done|].
  rewrite attempts_cons. pose proof (attempt_once_net token w) as Hn.
  destruct (attempt_once token w) as [o w1] eqn:E. cbn [snd] in Hn.
  assert (attempts rest token w1 = (true, w') →
          ∃ w0, attempt_once token w0 = (Committed, w')
                ∧ net w0 `suffix_of` net w) as Hrec.
  { intros (w0&H1&H2)%IH. exists w0. split; [done|]. by etrans. }
  destruct o; cbn [after]; try destruct (attempt <? max_retries - 1)%nat;
    try done.
  all: intros [= <-]; by exists w.
Qed.

Lemma attempt_once_committed (token : string) (w w' : world) :
  attempt_once token w = (Committed, w') →
  ∃ data email jwt n,
    head (net w) = Some (Dict data)
    ∧ dict_get (f_email data) = Some email ∧ Text.truthy email = true
    ∧ status_excluded (dict_get (f_status data)) = false
    ∧ dict_get_default (f_pull_count data) 0 = Some n ∧ n < 5
    ∧ token_ok jwt = true
    ∧ (dict_get (f_refresh_token data) = Some jwt
       ∨ ∃ d, Dict d ∈ net w ∧ dict_get (f_refresh_token d) = Some jwt)
    ∧ db w' = foldl upsert_row (db w) (updates_of (Some email) (Some jwt)).
Proof.
  unfold attempt_once.
  pose proof (post_effect (GetCursorToken token) w) as (_&_&Hdb&_&_&Hnet).
  unfold post in *. destruct (net w) as [|[| |data] rest] eqn:En; try done.
  cbn [fst snd] in *.
  set (w1 := World _ _ _ _ rest _) in *.
  destruct (resolve_token _ _ _ _ w1) as [[jwt|] w2] eqn:Er; [|done].
  pose proof (resolve_token_effect token (dict_get (f_email data))
    (dict_get (f_password data)) (dict_get (f_refresh_token data)) w1) as (_&Hdb2&_).
  rewrite Er in Hdb2. cbn [snd] in Hdb2.
  destruct (resolve_token_some _ _ _ _ _ _ _ Er) as [Hj Horigin].
  destruct (status_excluded _) eqn:Es; [done|].
  destruct (dict_get_default _ _) as [n|] eqn:Ep; [|done].
  destruct (Z.leb_spec 5 n) as [|Hq]; [done|].
  destruct (dict_get (f_email data)) as [email|] eqn:Ee; [|done].
  cbn [forallb truthy]. destruct (Text.truthy email) eqn:Et; [|done].
  assert (Text.truthy jwt = true) as Hjt by (by apply andb_true_iff in Hj as [? _]).
  rewrite Hjt. cbn [andb negb].
  pose proof (CursorAuthManager_db w2) as Hm.
  destruct (CursorAuthManager w2) as [[u|] w3]; [|done]. cbn [snd] in Hm.
  pose proof (update_auth_success_db (Some email) (Some jwt) (Some jwt) w3) as Hu.
  destruct (update_auth _ _ _ w3) as [[|] w4]; [|done]. cbn [fst snd] in Hu.
  intros [= <-]. exists data, email, jwt, n.
  split_and!; try done.
  - destruct Horigin as [->|(d&Hd&Hd')]; [by left|right].
    exists d. split; [|done]. subst w1. cbn [net] in Hd.
    destruct rest as [|x rest']; [done|]. simpl in Hd. injection Hd as ->.
    apply list_elem_of_further, list_elem_of_here.
  - rewrite (Hu eq_refl), Hm, Hdb2. by subst w1.
Qed.

Lemma written_commit (email jwt key : string) :
  token_ok jwt = true →
  written key (updates_of (Some email) (Some jwt))
    = if String.eqb key "cursorAuth/isLoggedIn" then Some "true"
      else if String.eqb key "cursorAuth/email" || String.eqb key "cursorAuth/cachedEmail"
      then Some email
      else if bool_decide (key ∈ token_aliases) then Some jwt
      else written key (updates_of None None).
Proof.
  intros Hj. unfold updates_of. cbn [token_valid]. rewrite Hj.
  cbn [app written].
  repeat match goal with
  | |- context [String.eqb ?k key] =>
      rewrite (String.eqb_sym k key);
      destruct (String.eqb_spec key k) as [->|?]; [reflexivity|]
  end.
  cbn [orb]. rewrite bool_decide_false; [done|].
  unfold token_aliases. rewrite !elem_of_cons, elem_of_nil.
  by intros [?|[?|[?|[?|[?|[]]]]]].
Qed.

(** X16. A run reports success only after committing an account that passed
    every check.  The account is one of the scripted replies, has a
    non-empty email, a status that is neither EXCEEDED nor DEPLETED and a
    pull count below 5; the token starts with "ey" and comes from that reply
    or from a reply of the refresh-token endpoint.  Afterwards the store
    marks the user as logged in and holds this email under both email keys
    and this token under the five token keys. *)
Theorem run_success (e a r : option string) (w : world) :
  (update_cursor_auth e a r w).1 = true →
  ∃ data email jwt n,
    Dict data ∈ net w
    ∧ dict_get (f_email data) = Some email ∧ email ≠ ""
    ∧ status_excluded (dict_get (f_status data)) = false
    ∧ dict_get_default (f_pull_count data) 0 = Some n ∧ n < 5
    ∧ token_valid (Some jwt) = true
    ∧ (dict_get (f_refresh_token data) = Some jwt
       ∨ ∃ d, Dict d ∈ net w ∧ dict_get (f_refresh_token d) = Some jwt)
    ∧ value_of "cursorAuth/isLoggedIn" (db (update_cursor_auth e a r w).2) = Some "true"
    ∧ value_of "cursorAuth/email" (db (update_cursor_auth e a r w).2) = Some email
    ∧ value_of "cursorAuth/cachedEmail" (db (update_cursor_auth e a r w).2) = Some email
    ∧ ∀ key, key ∈ token_aliases →
        value_of key (db (update_cursor_auth e a r w).2) = Some jwt.
Proof.
  unfold update_cursor_auth.
  destruct (get_token w) as [token|]; [|done]. destruct (negb _); [done|].
  pose proof (clear_auth_info_effect w) as (_&_&Hnet&_).
  destruct (clear_auth_info w) as [ok w1]. cbn [snd] in Hnet.
  destruct (attempts _ token w1) as [res w'] eqn:E. cbn [fst snd]. intros ->.
  destruct (attempts_committed _ _ _ _ E) as (w0&Hc&Hs). rewrite Hnet in Hs.
  destruct (attempt_once_committed _ _ _ Hc)
    as (data&email&jwt&n&Hh&He&Ht&Hst&Hp&Hn&Hj&Ho&Hdb).
  assert (∀ x, x ∈ net w0 → x ∈ net w) as Hin.
  { intros x Hx. by apply (elem_of_suffix _ _ _ Hx). }
  exists data, email, jwt, n. rewrite Hdb.
  split_and!; try done.
  - apply Hin. destruct (net w0); [done|]. injection Hh as ->. apply list_elem_of_here.
  - by intros ->.
  - destruct Ho as [?|(d&Hd&Hd')]; [by left|right]. exists d. by split; [apply Hin|].
  - by rewrite get_after_upserts, written_commit.
  - by rewrite get_after_upserts, written_commit.
  - by rewrite get_after_upserts, written_commit.
  - intros key Hk. rewrite get_after_upserts, written_commit by done.
    unfold token_aliases in Hk. rewrite !elem_of_cons, elem_of_nil in Hk.
    destruct Hk as [->|[->|[->|[->|[->|[]]]]]]; reflexivity.
Qed.

Lemma run_success_witness :
  let w := sample [Dict (account "a@b.com" "ey.one" "EXCEEDED" 0);
                   Dict (account "c@d.com" "opaque" "ACTIVE" 4);
                   Dict (Body Absent Absent (Val "ey.two") Absent Absent)] [] in
  ∃ data email jwt n,
    Dict data ∈ net w
    ∧ dict_get (f_email data) = Some email ∧ email ≠ ""
    ∧ status_excluded (dict_get (f_status data)) = false
    ∧ dict_get_default (f_pull_count data) 0 = Some n ∧ n < 5
    ∧ token_valid (Some jwt) = true
    ∧ (dict_get (f_refresh_token data) = Some jwt
       ∨ ∃ d, Dict d ∈ net w ∧ dict_get (f_refresh_token d) = Some jwt)
    ∧ value_of "cursorAuth/isLoggedIn" (db (update_cursor_auth None None None w).2)
        = Some "true"
    ∧ value_of "cursorAuth/email" (db (update_cursor_auth None None None w).2)
        = Some email
    ∧ value_of "cursorAuth/cachedEmail" (db (update_cursor_auth None None None w).2)
        = Some email
    ∧ ∀ key, key ∈ token_aliases →
        value_of key (db (update_cursor_auth None None None w).2) = Some jwt.
Proof.
  intros w. apply (run_success None None None w). reflexivity.
Defined.

(** ** Replies that end the run at once *)

Lemma run_raised (e a r : option string) (w w' : world) (token : string) :
  get_token w = Some token → Text.truthy token = true →
  attempt_once token (clear_auth_info w).2 = (Raised, w') →
  update_cursor_auth e a r w = (false, w').
Proof.
  intros Ht Hn Ha. rewrite (run_unfold e a r w token Ht Hn).
  change (seq 0 max_retries) with [0; 1; 2]%nat. by rewrite attempts_cons, Ha.
Qed.

(** X17. A reply that is no JSON object, or an account whose pull count is
    [null] while its token is valid and its status not excluded, ends the
    run in the first pass: the run reports failure after this one request,
    whatever replies would follow, and commits nothing. *)
Theorem malformed_reply_ends_run
    (e a r : option string) (w : world) (token : string)
    (first : reply) (rest : list reply) :
  get_token w = Some token → Text.truthy token = true →
  net w = first :: rest →
  (first = NotADict
   ∨ ∃ data, first = Dict data
       ∧ token_valid (dict_get (f_refresh_token data)) = true
       ∧ status_excluded (dict_get (f_status data)) = false
       ∧ f_pull_count data = Null) →
  let run := update_cursor_auth e a r w in
  run.1 = false
  ∧ sent run.2 = sent w ++ [GetCursorToken token]
  ∧ net run.2 = rest
  ∧ db run.2 = db (clear_auth_info w).2.
Proof.
  intros Ht Hn Hnet Hfirst run.
  pose proof (clear_auth_info_effect w) as (_&_&Hn1&Hs1).
  set (w1 := (clear_auth_info w).2) in *. rewrite Hnet in Hn1.
  assert (attempt_once token w1
            = (Raised, World (token_file w1) (linesep w1) (db w1) (db_faults w1)
                         rest (sent w1 ++ [GetCursorToken token]))) as Ha.
  { unfold attempt_once, post. rewrite Hn1.
    destruct Hfirst as [->|(data&->&Hv&Hst&Hp)]; [done|].
    unfold resolve_token. rewrite Hv.
    destruct (dict_get (f_refresh_token data)) as [jwt|] eqn:Ej; [|done].
    by rewrite Hst, Hp. }
  unfold run. rewrite (run_raised e a r w _ token Ht Hn Ha). cbn [fst snd sent net db].
  by rewrite Hs1.
Qed.

Lemma malformed_reply_ends_run_witness :
  let w := sample [Dict (Body (Val "a@b.com") (Val "secret") (Val "ey.one")
                           (Val "ACTIVE") Null);
                   Dict (account "c@d.com" "ey.two" "ACTIVE" 0)] [] in
  let run := update_cursor_auth None None None w in
  run.1 = false
  ∧ sent run.2 = [GetCursorToken "tok-1"]
  ∧ net run.2 = [Dict (account "c@d.com" "ey.two" "ACTIVE" 0)]
  ∧ db run.2 = db (clear_auth_info w).2.
Proof.
  intros w.
  apply (malformed_reply_ends_run None None None w "tok-1"
           (Dict (Body (Val "a@b.com") (Val "secret") (Val "ey.one") (Val "ACTIVE") Null))
           [Dict (account "c@d.com" "ey.two" "ACTIVE" 0)]);
    try reflexivity.
  right. eexists. split_and!; reflexivity.
Defined.
